(** * opm-autodiff: the Newton driver and the IMPES/TPFA pressure assembler

    A shallow embedding of [NewtonSolver_impl.hpp] / [NewtonSolver.hpp]
    and of [ImpesTPFAAD.hpp].

    - C++ [double] is IEEE binary64: Rocq's primitive [float].
    - C++ [int] is [Z].  The iteration counter and the count of
      oscillating phases stay between their start value and a bound that
      is an [int] already, so they cannot wrap around; the sum of the
      linear-iteration counts is taken exactly (a signed overflow there
      is undefined in C++); the [unsigned int] counters wrap modulo 2^32
      and that is written out.
    - [std::vector<double>] and Eigen's dense column arrays ([V]) are
      [list float]; Eigen's sparse matrices ([M]) are finite maps from
      (row, column) to the stored coefficient.
    - Calls on the model are threaded through a state-and-trace monad, so
      that "how many linear solves were issued" is a statement about the
      trace. *)

From Stdlib Require Import ZArith List Lia Bool String Floats.
From stdpp Require Import base option list fin_maps gmap.
Import ListNotations.

Set Warnings "-inexact-float".
#[local] Open Scope Z_scope.

(** ** Outcomes of fallible code *)

(** How a C++ call can end other than by returning. *)
Inductive failure : Type :=
| AssertionFailed            (* [assert (...)] did not hold (asserts compiled in) *)
| Exception (what : string)  (* [THROW] / [OPM_THROW] *)
| OutOfBounds                (* unchecked read or size mismatch: undefined *)
| OutOfFuel.                 (* the embedding's loop bound was too small *)

Inductive outcome (A : Type) : Type :=
| Ok (a : A)
| Fail (f : failure).
Arguments Ok {A} a.
Arguments Fail {A} f.

Definition obind {A B} (o : outcome A) (k : A -> outcome B) : outcome B :=
  match o with
  | Ok a => k a
  | Fail f => Fail f
  end.

Definition assert_ (b : bool) : outcome unit :=
  if b then Ok tt else Fail AssertionFailed.

Definition of_option {A} (o : option A) : outcome A :=
  match o with
  | Some a => Ok a
  | None => Fail OutOfBounds
  end.

#[global] Instance outcome_ret : MRet outcome := fun A a => Ok a.
#[global] Instance outcome_bind : MBind outcome := fun A B k o => obind o k.

(** ** Dense vectors of doubles *)

(** The typedef [V]. *)
Abbreviation V := (list float).

(** [V::Zero(n)] (a size: Eigen wants it non-negative). *)
Definition V_Zero (n : Z) : V := replicate (Z.to_nat n) 0%float.

(** [v * w] for an array [v] and a scalar [w]. *)
Definition V_scale (v : V) (w : float) : V := map (fun x => (x * w)%float) v.

(** [w * v] for a scalar [w] and an array [v]. *)
Definition V_lscale (w : float) (v : V) : V := map (fun x => (w * x)%float) v.

(** A coefficient-wise binary operation on two arrays; Eigen requires the
    two sizes to agree. *)
Definition V_zip (f : float -> float -> float) (a b : V) : outcome V :=
  if (length a =? length b)%nat then Ok (zip_with f a b) else Fail OutOfBounds.

(** [std::max(a, b)] is [(a < b) ? b : a]. *)
Definition std_max (a b : float) : float := if (a <? b)%float then b else a.

(** ** NewtonSolver *)

Module NewtonSolver.

(** [enum RelaxType { DAMPEN, SOR }]. *)
Inductive RelaxType : Type := DAMPEN | SOR.

Record SolverParameters : Type := {
  relax_type_ : RelaxType;
  relax_max_ : float;
  relax_increment_ : float;
  relax_rel_tol_ : float;
  max_iter_ : Z;
  min_iter_ : Z
}.

(** [SolverParameters::reset]: the default values. *)
Definition reset : SolverParameters := {|
  relax_type_ := DAMPEN;
  relax_max_ := 0.5%float;
  relax_increment_ := 0.1%float;
  relax_rel_tol_ := 0.2%float;
  max_iter_ := 15;
  min_iter_ := 1
|}.

(** The capability set the driver needs of a [PhysicalModel].  [S] is
    everything the model can read or write: its own fields and the
    [reservoir_state] and [well_state] that [step] only ever hands on to
    it.  The argument-free getters ([sizeNonLinear],
    [linearIterationsLastSolve], [numPhases], [terminalOutputEnabled])
    are queries that leave [S] alone; every other member may change it.
    The members are taken to return: an exception out of the model is
    not caught by [step] and ends it there. *)
Record PhysicalModel (S : Type) : Type := {
  prepareStep : float -> S -> S;
  assemble : bool -> S -> S;
  computeResidualNorms : S -> list float * S;
  getConvergence : float -> Z -> S -> bool * S;
  sizeNonLinear : S -> Z;
  solveJacobianSystem : S -> V * S;
  linearIterationsLastSolve : S -> Z;
  updateState : V -> S -> S;
  afterStep : float -> S -> S;
  numPhases : S -> Z;
  terminalOutputEnabled : S -> bool
}.
Arguments prepareStep {S} _ _ _.
Arguments assemble {S} _ _ _.
Arguments computeResidualNorms {S} _ _.
Arguments getConvergence {S} _ _ _ _.
Arguments sizeNonLinear {S} _ _.
Arguments solveJacobianSystem {S} _ _.
Arguments linearIterationsLastSolve {S} _ _.
Arguments updateState {S} _ _ _.
Arguments afterStep {S} _ _ _.
Arguments numPhases {S} _ _.
Arguments terminalOutputEnabled {S} _ _.

(** The solver object: [param_], [model_] and the four counters. *)
Record Solver (S : Type) : Type := {
  param_ : SolverParameters;
  model_ : S;
  newtonIterations_ : Z;
  linearIterations_ : Z;
  newtonIterationsLast_ : Z;
  linearIterationsLast_ : Z
}.
Arguments param_ {S} _.
Arguments model_ {S} _.
Arguments newtonIterations_ {S} _.
Arguments linearIterations_ {S} _.
Arguments newtonIterationsLast_ {S} _.
Arguments linearIterationsLast_ {S} _.

Definition relaxType {S} (s : Solver S) : RelaxType := relax_type_ (param_ s).
Definition relaxMax {S} (s : Solver S) : float := relax_max_ (param_ s).
Definition relaxIncrement {S} (s : Solver S) : float := relax_increment_ (param_ s).
Definition relaxRelTol {S} (s : Solver S) : float := relax_rel_tol_ (param_ s).
(** [maxIter()] and [minIter()] return the [int] as a [double]; the
    conversion is exact and so are the comparisons with [iteration]. *)
Definition maxIter {S} (s : Solver S) : Z := max_iter_ (param_ s).
Definition minIter {S} (s : Solver S) : Z := min_iter_ (param_ s).

(** Arithmetic modulo 2^32 of the [unsigned int] counters. *)
Definition uint (z : Z) : Z := z mod 2 ^ 32.

(** *** detectNewtonOscillations *)

(** One round of the [for] loop over the phases: [acc] is
    ([oscillatePhase], [stagnate]). *)
Definition detect_phase (F0 F1 F2 : list float) (relaxRelTol : float)
    (acc : Z * bool) (p : nat) : outcome (Z * bool) :=
  (F0p ← of_option (F0 !! p);
   F1p ← of_option (F1 !! p);
   F2p ← of_option (F2 !! p);
   let d1 := abs ((F0p - F2p) / F0p)%float in
   let d2 := abs ((F0p - F1p) / F0p)%float in
   let oscillatePhase :=
     fst acc + (if (d1 <? relaxRelTol)%float && (relaxRelTol <? d2)%float then 1 else 0) in
   let stagnate :=
     snd acc && negb (1.0e-3 <? abs ((F1p - F2p) / F2p))%float in
   Ok (oscillatePhase, stagnate)).

Fixpoint detect_phases (F0 F1 F2 : list float) (relaxRelTol : float)
    (acc : Z * bool) (ps : list nat) : outcome (Z * bool) :=
  match ps with
  | [] => Ok acc
  | p :: ps' =>
      (acc' ← detect_phase F0 F1 F2 relaxRelTol acc p;
       detect_phases F0 F1 F2 relaxRelTol acc' ps')
  end.

(** Returns the values written to ([oscillate], [stagnate]).  [np] is
    [model_->numPhases()]. *)
Definition detectNewtonOscillations (np : Z) (residual_history : list (list float))
    (it : Z) (relaxRelTol : float) : outcome (bool * bool) :=
  if it <? 2 then Ok (false, false)
  else
    (F0 ← of_option (residual_history !! Z.to_nat it);
     F1 ← of_option (residual_history !! Z.to_nat (it - 1));
     F2 ← of_option (residual_history !! Z.to_nat (it - 2));
     '(oscillatePhase, stagnate) ←
        detect_phases F0 F1 F2 relaxRelTol (0, true) (seq 0 (Z.to_nat np));
     Ok (1 <? oscillatePhase, stagnate)).

(** *** stabilizeNewton *)

(** Returns the new ([dx], [dxOld]).  The [default:] branch of the
    [switch] cannot be reached by a value of the enumeration. *)
Definition stabilizeNewton (dx dxOld : V) (omega : float) (relax_type : RelaxType)
    : outcome (V * V) :=
  let tempDxOld := dxOld in
  let dxOld := dx in
  match relax_type with
  | DAMPEN =>
      if (omega =? 1)%float then Ok (dx, dxOld)
      else Ok (V_scale dx omega, dxOld)
  | SOR =>
      if (omega =? 1)%float then Ok (dx, dxOld)
      else
        (dx' ← V_zip PrimFloat.add (V_scale dx omega) (V_lscale (1 - omega) tempDxOld);
         Ok (dx', dxOld))
  end.

(** *** The calls [step] makes on the model, and its terminal output *)

Inductive Call : Type :=
| CallPrepareStep
| CallAssemble (initial_assembly : bool)
| CallComputeResidualNorms
| CallGetConvergence (iteration : Z)
| CallSolveJacobianSystem
| CallUpdateState (dx : V)
| CallAfterStep
| PrintRelaxation (omega : float)
| PrintNotConverged (iteration : Z).

(** Code that runs against the model state [S], appends to the trace of
    calls and may fail. *)
Definition Exec (S A : Type) : Type := S * list Call -> outcome (A * (S * list Call)).

#[global] Instance Exec_ret {S} : MRet (Exec S) := fun A a st => Ok (a, st).
#[global] Instance Exec_bind {S} : MBind (Exec S) := fun A B k m st =>
  match m st with
  | Ok (a, st') => k a st'
  | Fail f => Fail f
  end.

(** A mutating call on the model. *)
Definition call {S A} (c : Call) (f : S -> A * S) : Exec S A :=
  fun st => let '(a, s') := f (fst st) in Ok (a, (s', snd st ++ [c])).
(** A mutating call that returns nothing. *)
Definition call_ {S} (c : Call) (f : S -> S) : Exec S unit :=
  fun st => Ok (tt, (f (fst st), snd st ++ [c])).
(** A [const] query on the model. *)
Definition query {S A} (f : S -> A) : Exec S A :=
  fun st => Ok (f (fst st), st).
(** A line on [std::cout] / [std::cerr]. *)
Definition print {S} (c : Call) : Exec S unit :=
  fun st => Ok (tt, (fst st, snd st ++ [c])).
(** A pure computation that may fail. *)
Definition lift {S A} (o : outcome A) : Exec S A :=
  fun st => match o with Ok a => Ok (a, st) | Fail f => Fail f end.

(** *** step *)

(** The local variables of [step] that live across the main loop. *)
Record LoopVars : Type := {
  omega : float;
  iteration : Z;
  converged : bool;
  dxOld : V;
  isOscillate : bool;
  isStagnate : bool;
  linearIterations : Z;
  residual_norms_history : list (list float)
}.

Section Step.
Context {S : Type} (model : PhysicalModel S) (solver : Solver S).

(** The condition of the [while]. *)
Definition loop_condition (lv : LoopVars) : bool :=
  (negb (converged lv) && (iteration lv <? maxIter solver))
  || (minIter solver >? iteration lv).

(** A line of terminal output, when the model has it enabled. *)
Definition report (c : Call) : Exec S unit :=
  verbose ← query (terminalOutputEnabled model);
  if verbose : bool then print c else mret tt.

(** The [if (isOscillate)] block: the new [omega]. *)
Definition relax (isOscillate : bool) (omega : float) : Exec S float :=
  if isOscillate then
    let omega := std_max (omega - relaxIncrement solver)%float (relaxMax solver) in
    _ ← report (PrintRelaxation omega);
    mret omega
  else mret omega.

(** The body of the [while].  The running total [linearIterations] is
    an [int]; it is added up exactly here, which is what the code
    computes as long as the total stays within the range of [int]. *)
Definition newton_iteration (dt : float) (lv : LoopVars) : Exec S LoopVars :=
  dx ← call CallSolveJacobianSystem (solveJacobianSystem model);
  lin ← query (linearIterationsLastSolve model);
  let linearIterations := linearIterations lv + lin in
  np ← query (numPhases model);
  '(isOscillate, isStagnate) ←
    lift (detectNewtonOscillations np (residual_norms_history lv) (iteration lv)
            (relaxRelTol solver));
  omega ← relax isOscillate (omega lv);
  '(dx, dxOld) ← lift (stabilizeNewton dx (dxOld lv) omega (relaxType solver));
  _ ← call_ (CallUpdateState dx) (updateState model dx);
  _ ← call_ (CallAssemble false) (assemble model false);
  norms ← call CallComputeResidualNorms (computeResidualNorms model);
  let iteration := iteration lv + 1 in
  converged ← call (CallGetConvergence iteration) (getConvergence model dt iteration);
  mret {| omega := omega;
          iteration := iteration;
          converged := converged;
          dxOld := dxOld;
          isOscillate := isOscillate;
          isStagnate := isStagnate;
          linearIterations := linearIterations;
          residual_norms_history := residual_norms_history lv ++ [norms] |}.

(** The [while] itself; [fuel] bounds the number of rounds. *)
Fixpoint newton_loop (fuel : nat) (dt : float) (lv : LoopVars) : Exec S LoopVars :=
  if loop_condition lv then
    match fuel with
    | O => lift (Fail OutOfFuel)
    | Datatypes.S fuel' =>
        lv' ← newton_iteration dt lv;
        newton_loop fuel' dt lv'
    end
  else mret lv.

(** The loop runs while [iteration] is below [maxIter()] or [minIter()],
    and [iteration] starts at 0. *)
Definition step_fuel : nat := Z.to_nat (Z.max (maxIter solver) (minIter solver)).

(** Everything up to the end of the loop. *)
Definition newton_iterations (dt : float) : Exec S LoopVars :=
  _ ← call_ CallPrepareStep (prepareStep model dt);
  _ ← call_ (CallAssemble true) (assemble model true);
  norms ← call CallComputeResidualNorms (computeResidualNorms model);
  converged ← call (CallGetConvergence 0) (getConvergence model dt 0);
  sizeNonLinear ← query (sizeNonLinear model);
  newton_loop step_fuel dt
    {| omega := 1.0;
       iteration := 0;
       converged := converged;
       dxOld := V_Zero sizeNonLinear;
       isOscillate := false;
       isStagnate := false;
       linearIterations := 0;
       residual_norms_history := [norms] |}.

(** What [step] leaves behind: the value returned, the solver object
    (its [model_] field holds the model and the two states), the calls
    made, and the loop variables at the end of the loop. *)
Record StepResult : Type := {
  returned : Z;
  solver_after : Solver S;
  calls : list Call;
  at_exit : LoopVars
}.

(** The part of [step] after the loop. *)
Definition finish (dt : float) (lv : LoopVars) : Exec S (Z * Solver S) :=
  if negb (converged lv) then
    _ ← report (PrintNotConverged (iteration lv));
    mret (-1, solver)
  else
    let counted :=
      {| param_ := param_ solver;
         model_ := model_ solver;
         linearIterations_ := uint (linearIterations_ solver + linearIterations lv);
         newtonIterations_ := uint (newtonIterations_ solver + iteration lv);
         linearIterationsLast_ := uint (linearIterations lv);
         newtonIterationsLast_ := uint (iteration lv) |} in
    _ ← call_ CallAfterStep (afterStep model dt);
    mret (linearIterations lv, counted).

Definition set_model (s : Solver S) (m : S) : Solver S :=
  {| param_ := param_ s;
     model_ := m;
     linearIterations_ := linearIterations_ s;
     newtonIterations_ := newtonIterations_ s;
     linearIterationsLast_ := linearIterationsLast_ s;
     newtonIterationsLast_ := newtonIterationsLast_ s |}.

Definition step (dt : float) : outcome StepResult :=
  match newton_iterations dt (model_ solver, []) with
  | Fail f => Fail f
  | Ok (lv, st) =>
      match finish dt lv st with
      | Fail f => Fail f
      | Ok ((r, counted), (s, tr)) =>
          Ok {| returned := r;
                solver_after := set_model counted s;
                calls := tr;
                at_exit := lv |}
      end
  end.
End Step.

Arguments returned {S} _.
Arguments solver_after {S} _.
Arguments calls {S} _.
Arguments at_exit {S} _.

(** The number of calls of a kind in a trace. *)
Definition is_solve (c : Call) : bool :=
  match c with CallSolveJacobianSystem => true | _ => false end.
Definition is_assemble (c : Call) : bool :=
  match c with CallAssemble _ => true | _ => false end.
Definition is_update (c : Call) : bool :=
  match c with CallUpdateState _ => true | _ => false end.
Definition is_afterStep (c : Call) : bool :=
  match c with CallAfterStep => true | _ => false end.
Definition count (f : Call -> bool) (tr : list Call) : Z :=
  Z.of_nat (length (List.filter f tr)).

(** *** The oscillation test in the specification's words *)

(** A residual norm is not negative: it is its own absolute value. *)
Definition is_norm (x : float) : Prop := abs x = x.

(** Snapshots of at least [np] norms each. *)
Definition norm_history (np : Z) (residual_history : list (list float)) : Prop :=
  Forall (fun F => np <= Z.of_nat (length F) /\ Forall is_norm F) residual_history.

(** Phase [p] is flagged when [d1 < tol < d2], with [d1 = |F0-F2|/F0]
    and [d2 = |F0-F1|/F0]. *)
Definition phase_flagged (tol : float) (F0 F1 F2 : list float) (p : nat) : bool :=
  match F0 !! p, F1 !! p, F2 !! p with
  | Some f0, Some f1, Some f2 =>
      let d1 := (abs (f0 - f2) / f0)%float in
      let d2 := (abs (f0 - f1) / f0)%float in
      (d1 <? tol)%float && (tol <? d2)%float
  | _, _, _ => false
  end.

Definition flagged_phases (tol : float) (np : Z) (F0 F1 F2 : list float) : list nat :=
  List.filter (phase_flagged tol F0 F1 F2) (seq 0 (Z.to_nat np)).

(** Inactive for the first two iterations; afterwards the step
    oscillates when more than one phase is flagged. *)
Definition step_oscillating (np : Z) (residual_history : list (list float))
    (it : Z) (tol : float) : bool :=
  if it <? 2 then false
  else
    match residual_history !! Z.to_nat it,
          residual_history !! Z.to_nat (it - 1),
          residual_history !! Z.to_nat (it - 2) with
    | Some F0, Some F1, Some F2 =>
        1 <? Z.of_nat (length (flagged_phases tol np F0 F1 F2))
    | _, _, _ => false
    end.

(** Two phases whose residual norms both dip and come back. *)
Definition alternating_history : list (list float) :=
  [[1.0; 2.0]; [0.5; 1.0]; [0.9; 1.8]]%float.

(** *** Bookkeeping for the statements about [step] *)

(** The relaxation factor after the [if (isOscillate)] block. *)
Definition relaxed {S} (solver : Solver S) (isOscillate : bool) (omega : float) : float :=
  if isOscillate then std_max (omega - relaxIncrement solver)%float (relaxMax solver)
  else omega.

(** [tr'] is [tr] followed by the calls of [k] rounds of the loop: [k]
    linear solves, [k] updates, [k] assemblies and no [afterStep]. *)
Definition grows (tr tr' : list Call) (k : Z) : Prop :=
  exists evs, tr' = tr ++ evs
    /\ count is_solve evs = k /\ count is_assemble evs = k
    /\ count is_update evs = k /\ count is_afterStep evs = 0.

(** The sizes a model promises: [np] phases, at least [np] norms in
    every snapshot, [n] unknowns and [n] entries in every update.  Without
    them [detectNewtonOscillations] reads past the end of a snapshot and
    the SOR blend adds arrays of different sizes. *)
Record sized_model {S} (model : PhysicalModel S) (np : Z) (n : nat) : Prop := {
  sized_phases : forall s, numPhases model s = np;
  sized_norms : forall s, np <= Z.of_nat (length (fst (computeResidualNorms model s)));
  sized_unknowns : forall s, sizeNonLinear model s = Z.of_nat n;
  sized_update : forall s, length (fst (solveJacobianSystem model s)) = n
}.

(** A model that never reports convergence. *)
Definition never_converges {S} (model : PhysicalModel S) : Prop :=
  forall dt it s, fst (getConvergence model dt it s) = false.

(** What holds of the loop variables at the head of the loop. *)
Definition loop_inv (np : Z) (n : nat) (lv : LoopVars) : Prop :=
  0 <= iteration lv
  /\ Z.of_nat (length (residual_norms_history lv)) = iteration lv + 1
  /\ Forall (fun F => np <= Z.of_nat (length F)) (residual_norms_history lv)
  /\ length (dxOld lv) = n.

(** The loop variables as [step] sets them up before the loop. *)
Definition loop_entry (converged : bool) (sizeNonLinear : Z) (norms : list float)
    : LoopVars :=
  {| omega := 1.0;
     iteration := 0;
     converged := converged;
     dxOld := V_Zero sizeNonLinear;
     isOscillate := false;
     isStagnate := false;
     linearIterations := 0;
     residual_norms_history := [norms] |}.

(** The solver object after a successful step that took [newton] Newton
    and [linear] linear iterations, with the model left in state [m]. *)
Definition counted {S} (solver : Solver S) (newton linear : Z) (m : S) : Solver S :=
  {| param_ := param_ solver;
     model_ := m;
     linearIterations_ := uint (linearIterations_ solver + linear);
     newtonIterations_ := uint (newtonIterations_ solver + newton);
     linearIterationsLast_ := uint linear;
     newtonIterationsLast_ := uint newton |}.

(** *** Toy models over a trivial state *)

(** Reports [converged it] at iteration [it], one phase of residual norm
    [1.0], one unknown, [lin] linear iterations for every solve. *)
Definition toy_model (converged : Z -> bool) (lin : Z) : PhysicalModel unit :=
  {| prepareStep := fun _ s => s;
     assemble := fun _ s => s;
     computeResidualNorms := fun s => ([1.0%float], s);
     getConvergence := fun _ it s => (converged it, s);
     sizeNonLinear := fun _ => 1;
     solveJacobianSystem := fun s => ([1.0%float], s);
     linearIterationsLastSolve := fun _ => lin;
     updateState := fun _ s => s;
     afterStep := fun _ s => s;
     numPhases := fun _ => 1;
     terminalOutputEnabled := fun _ => false |}.

(** Never converges. *)
Definition stuck_model : PhysicalModel unit := toy_model (fun _ => false) 3.


(** Converged throughout. *)
Definition settled_model : PhysicalModel unit := toy_model (fun _ => true) 3.

(** Converged throughout, with solves that report -1 linear iterations. *)
Definition miscounting_model : PhysicalModel unit := toy_model (fun _ => true) (-1).

(** A fresh solver, as the constructor leaves it (the two last-step
    counters are not initialised there: any value will do). *)
Definition fresh_solver (param : SolverParameters) : Solver unit :=
  {| param_ := param;
     model_ := tt;
     newtonIterations_ := 0;
     linearIterations_ := 0;
     newtonIterationsLast_ := 0;
     linearIterationsLast_ := 0 |}.

(** The default parameters with other iteration bounds. *)
Definition with_iterations (max_iter min_iter : Z) : SolverParameters :=
  {| relax_type_ := relax_type_ reset;
     relax_max_ := relax_max_ reset;
     relax_increment_ := relax_increment_ reset;
     relax_rel_tol_ := relax_rel_tol_ reset;
     max_iter_ := max_iter;
     min_iter_ := min_iter |}.

(** *** The constructors and the counters *)

(** [parameter::ParameterGroup], as far as the constructor reads it: the
    typed lookups behind [getDefault], [None] for a name that is not
    set. *)
Record ParameterGroup : Type := {
  get_double : string -> option float;
  get_int : string -> option Z;
  get_string : string -> option string
}.

(** [param.getDefault(name, default_value)]. *)
Definition getDefault {A} (lookup : string -> option A) (name : string)
    (default_value : A) : A :=
  match lookup name with
  | Some value => value
  | None => default_value
  end.

(** [SolverParameters(param)]: the defaults of [reset], overloaded with
    the given parameters. *)
Definition SolverParameters_of (param : ParameterGroup) : outcome SolverParameters :=
  let defaults := reset in
  let relax_max := getDefault (get_double param) "relax_max" (relax_max_ defaults) in
  let max_iter := getDefault (get_int param) "max_iter" (max_iter_ defaults) in
  let min_iter := getDefault (get_int param) "min_iter" (min_iter_ defaults) in
  let relaxation_type := getDefault (get_string param) "relax_type" "dampen"%string in
  let with_type (relax_type : RelaxType) :=
    {| relax_type_ := relax_type;
       relax_max_ := relax_max;
       relax_increment_ := relax_increment_ defaults;
       relax_rel_tol_ := relax_rel_tol_ defaults;
       max_iter_ := max_iter;
       min_iter_ := min_iter |} in
  if (relaxation_type =? "dampen")%string then Ok (with_type DAMPEN)
  else if (relaxation_type =? "sor")%string then Ok (with_type SOR)
  else Fail (Exception (String.append "Unknown Relaxtion Type " relaxation_type)).

(** The parameter group in which nothing is set. *)
Definition no_parameters : ParameterGroup :=
  {| get_double := fun _ => None; get_int := fun _ => None; get_string := fun _ => None |}.

(** [NewtonSolver(param, model)]: the two cumulative counters start at 0,
    the two last-step counters are left as the memory holds them. *)
Definition NewtonSolver_new {S} (param : SolverParameters) (model : S)
    (newtonIterationsLast linearIterationsLast : Z) : Solver S :=
  {| param_ := param;
     model_ := model;
     newtonIterations_ := 0;
     linearIterations_ := 0;
     newtonIterationsLast_ := newtonIterationsLast;
     linearIterationsLast_ := linearIterationsLast |}.


(** *** More bookkeeping *)

(** Phase [p] shows no significant residual change between the two
    oldest snapshots. *)
Definition phase_stagnant (F1 F2 : list float) (p : nat) : bool :=
  match F1 !! p, F2 !! p with
  | Some f1, Some f2 => negb (1.0e-3 <? abs ((f1 - f2) / f2))%float
  | _, _ => true
  end.

Definition is_initial_assemble (c : Call) : bool :=
  match c with CallAssemble true => true | _ => false end.
Definition is_norms (c : Call) : bool :=
  match c with CallComputeResidualNorms => true | _ => false end.
Definition is_relaxation (c : Call) : bool :=
  match c with PrintRelaxation _ => true | _ => false end.

(** A model of two phases whose residual norms swing back and forth
    from one assembly to the next and that never converges; its state
    counts the computations of the norms. *)
Definition seesaw_model : PhysicalModel nat :=
  {| prepareStep := fun _ s => s;
     assemble := fun _ s => s;
     computeResidualNorms := fun s =>
       (if Nat.even s then [1.0; 2.0]%float else [0.5; 1.0]%float, Datatypes.S s);
     getConvergence := fun _ _ s => (false, s);
     sizeNonLinear := fun _ => 2;
     solveJacobianSystem := fun s => ([1.0; 1.0]%float, s);
     linearIterationsLastSolve := fun _ => 1;
     updateState := fun _ s => s;
     afterStep := fun _ s => s;
     numPhases := fun _ => 2;
     terminalOutputEnabled := fun _ => true |}.

(** A solver for it, as the constructor leaves it. *)
Definition seesaw_solver : Solver nat := NewtonSolver_new reset 0%nat 0 0.

End NewtonSolver.

(** ** Sparse matrices and the AD block algebra *)

Module AutoDiff.

(** Modelled from the spec: AutoDiffBlock.hpp and AutoDiffHelpers.hpp
    (the block algebra, [spdiag], [subset], [HelperOps] and
    [UpwindSelector]) are not among the sources at hand; this module
    follows sections 3 and 4.1 of the specification.  A sparse matrix
    [M] is its shape and its stored coefficients; an operation only ever
    touches stored coefficients, so a matrix without any stays without
    any. *)
Record M : Type := {
  rows : nat;
  cols : nat;
  coeffs : gmap (nat * nat) float
}.

(** Modelled from the spec: [M(r, c)], the zero matrix of shape [r] by
    [c]. *)
Definition zeroM (r c : nat) : M := {| rows := r; cols := c; coeffs := ∅ |}.

(** Modelled from the spec: [v[i]] inside a matrix operation, for an
    index already checked against the size of [v]. *)
Definition V_at (v : V) (i : nat) : float := default 0%float (v !! i).

(** Modelled from the spec: [spdiag(d)], promotion of a vector to a
    diagonal sparse matrix. *)
Definition spdiag (d : V) : M :=
  {| rows := length d;
     cols := length d;
     coeffs := list_to_map (imap (fun i x => ((i, i), x)) d) |}.

(** Modelled from the spec: the identity matrix, the Jacobian of a
    variable against its own block. *)
Definition identityM (n : nat) : M := spdiag (replicate n 1%float).

(** Modelled from the spec: a diagonal matrix times [m], as the
    differentiation rules need it; every stored coefficient is scaled by
    the entry of [d] of its row. *)
Definition diag_mul (d : V) (m : M) : M :=
  {| rows := rows m;
     cols := cols m;
     coeffs := map_imap (fun ij x => Some (V_at d (fst ij) * x)%float) (coeffs m) |}.

(** Modelled from the spec: coefficient-wise combination of two blocks
    of one shape; a coefficient stored on one side only meets a zero. *)
Definition combine (f : float -> float -> float) (a b : M) : M :=
  {| rows := rows a;
     cols := cols a;
     coeffs := merge (fun x y =>
                 match x, y with
                 | Some x, Some y => Some (f x y)
                 | Some x, None => Some (f x 0%float)
                 | None, Some y => Some (f 0%float y)
                 | None, None => None
                 end) (coeffs a) (coeffs b) |}.
Definition madd : M -> M -> M := combine PrimFloat.add.
Definition msub : M -> M -> M := combine PrimFloat.sub.

(** Modelled from the spec: adds [x] to the coefficient at [ij], storing
    it if need be. *)
Definition accumulate (ij : nat * nat) (x : float) (m : gmap (nat * nat) float)
    : gmap (nat * nat) float :=
  partial_alter (fun o => Some (match o with Some y => (y + x)%float | None => x end)) ij m.

(** Modelled from the spec: [a * b] for sparse [a] and [b]; a
    coefficient is stored where some stored [a(i,k)] meets a stored
    [b(k,j)]. *)
Definition mmul (a b : M) : M :=
  {| rows := rows a;
     cols := cols b;
     coeffs :=
       foldr (fun ika acc =>
                foldr (fun kjb acc' =>
                         if (snd (fst ika) =? fst (fst kjb))%nat
                         then accumulate (fst (fst ika), snd (fst kjb))
                                (snd ika * snd kjb)%float acc'
                         else acc')
                      acc (map_to_list (coeffs b)))
             ∅ (map_to_list (coeffs a)) |}.

(** Modelled from the spec: [a * v] for a sparse [a] and a dense [v]. *)
Definition mvmul (a : M) (v : V) : V :=
  foldr (fun ika (acc : V) =>
           alter (fun y => (y + snd ika * V_at v (snd (fst ika)))%float) (fst (fst ika)) acc)
        (replicate (rows a) 0%float) (map_to_list (coeffs a)).

(** Modelled from the spec: the matrix of a list of (row, column, value)
    triplets (Eigen's [setFromTriplets]); coefficients at the same place
    are summed. *)
Definition fromTriplets (r c : nat) (ts : list (nat * nat * float)) : M :=
  {| rows := r;
     cols := c;
     coeffs := foldl (fun acc t => accumulate (fst t) (snd t) acc) ∅ ts |}.

(** Modelled from the spec: the rows of [m] listed in [idx], in that
    order. *)
Definition gather_rows (idx : list nat) (m : M) : M :=
  mmul (fromTriplets (length idx) (rows m) (imap (fun r i => ((r, i), 1%float)) idx)) m.

(** Modelled from the spec: [subset(v, indices)], the entries of [v] at
    [indices]; an index past the end is out of bounds. *)
Definition subset_V (v : V) (indices : list Z) : outcome V :=
  mapM (fun i => if i <? 0 then Fail OutOfBounds else of_option (v !! Z.to_nat i)) indices.

(** *** AD quantities *)

(** Modelled from the spec: an AD quantity, a value and one Jacobian
    block per group of unknowns. *)
Record ADB : Type := {
  val : V;
  jac : list M
}.

(** Modelled from the spec: [ADB::null()], the quantity without value
    and without blocks. *)
Definition null : ADB := {| val := []; jac := [] |}.

(** Modelled from the spec: the number of blocks and the block pattern,
    the ordered sequence of the block sizes. *)
Definition numBlocks (x : ADB) : nat := length (jac x).
Definition blockPattern (x : ADB) : list nat := map cols (jac x).

(** Modelled from the spec: [ADB::constant(v, pattern)]; all Jacobian
    blocks are the zero matrix of correct shape. *)
Definition constant (v : V) (pattern : list nat) : ADB :=
  {| val := v; jac := map (zeroM (length v)) pattern |}.

(** Modelled from the spec: [ADB::variable(index, v, pattern)]; the
    identity for its own block and zero for all others. *)
Definition variable (index : nat) (v : V) (pattern : list nat) : ADB :=
  {| val := v;
     jac := imap (fun i c => if (i =? index)%nat then identityM (length v)
                             else zeroM (length v) c) pattern |}.

(** Modelled from the spec: [ADB::variables(values)]; one variable per
    entry, each against its own block within the shared pattern of their
    sizes. *)
Definition variables (values : list V) : list ADB :=
  imap (fun i v => variable i v (map length values)) values.

(** Modelled from the spec: [ADB::function(v, jac)]; value and blocks
    supplied explicitly, every block with as many rows as the value. *)
Definition function (v : V) (jac : list M) : outcome ADB :=
  _ ← assert_ (forallb (fun m => (rows m =? length v)%nat) jac);
  Ok {| val := v; jac := jac |}.

(** Modelled from the spec: the check every binary operation makes;
    both operands share size and block pattern, or the operation fails
    fast. *)
Definition same_shape (x y : ADB) : bool :=
  (length (val x) =? length (val y))%nat
  && bool_decide (blockPattern x = blockPattern y)
  && forallb (fun m => (rows m =? length (val x))%nat) (jac x)
  && forallb (fun m => (rows m =? length (val y))%nat) (jac y).

(** Modelled from the spec: elementwise sum and difference, block by
    block. *)
Definition ADB_add (x y : ADB) : outcome ADB :=
  _ ← assert_ (same_shape x y);
  Ok {| val := zip_with PrimFloat.add (val x) (val y);
        jac := zip_with madd (jac x) (jac y) |}.

Definition ADB_sub (x y : ADB) : outcome ADB :=
  _ ← assert_ (same_shape x y);
  Ok {| val := zip_with PrimFloat.sub (val x) (val y);
        jac := zip_with msub (jac x) (jac y) |}.

(** Modelled from the spec: elementwise product, blocks by the product
    rule [d(xy) = y dx + x dy]. *)
Definition ADB_mul (x y : ADB) : outcome ADB :=
  _ ← assert_ (same_shape x y);
  Ok {| val := zip_with PrimFloat.mul (val x) (val y);
        jac := zip_with (fun jx jy => madd (diag_mul (val y) jx) (diag_mul (val x) jy))
                 (jac x) (jac y) |}.

(** Modelled from the spec: elementwise quotient, blocks by the quotient
    rule [d(x/y) = (y dx - x dy) / y^2]; for [x = 1] this is the
    reciprocal rule [d(1/y) = -dy / y^2]. *)
Definition ADB_div (x y : ADB) : outcome ADB :=
  _ ← assert_ (same_shape x y);
  Ok {| val := zip_with PrimFloat.div (val x) (val y);
        jac := zip_with (fun jx jy =>
                           diag_mul (map (fun f => (1 / (f * f))%float) (val y))
                             (msub (diag_mul (val y) jx) (diag_mul (val x) jy)))
                 (jac x) (jac y) |}.

(** Modelled from the spec: a plain vector enters the arithmetic as a
    constant of the other operand's pattern. *)
Definition V_add (v : V) (y : ADB) : outcome ADB := ADB_add (constant v (blockPattern y)) y.
Definition add_V (x : ADB) (v : V) : outcome ADB := ADB_add x (constant v (blockPattern x)).
Definition V_sub (v : V) (y : ADB) : outcome ADB := ADB_sub (constant v (blockPattern y)) y.
Definition V_mul (v : V) (y : ADB) : outcome ADB := ADB_mul (constant v (blockPattern y)) y.
Definition V_div (v : V) (y : ADB) : outcome ADB := ADB_div (constant v (blockPattern y)) y.

(** Modelled from the spec: [m * x] for a sparse matrix [m]; the value
    and every block are multiplied from the left. *)
Definition M_mul (m : M) (x : ADB) : outcome ADB :=
  _ ← assert_ ((cols m =? length (val x))%nat
               && forallb (fun j => (rows j =? length (val x))%nat) (jac x));
  Ok {| val := mvmul m (val x); jac := map (mmul m) (jac x) |}.

(** Modelled from the spec: [subset(x, indices)], the row gather of [x]
    at [indices]. *)
Definition subset (x : ADB) (indices : list Z) : outcome ADB :=
  v ← subset_V (val x) indices;
  Ok {| val := v; jac := map (gather_rows (map Z.to_nat indices)) (jac x) |}.

(** The block of [x] against the second group of unknowns (in the
    assembler: the well bottom-hole pressures) has no coefficient. *)
Definition wellfree (x : ADB) : Prop :=
  exists m, jac x !! 1%nat = Some m /\ coeffs m = ∅.

End AutoDiff.

(** ** ImpesTPFAAD.hpp *)

Module Impes.
Import AutoDiff.

(** [V::Ones(n, 1)]. *)
Definition V_Ones (n : Z) : V := replicate (Z.to_nat n) 1%float.

(** [Eigen::Map<const V>(&data[0], n, 1)]: the first [n] entries of
    [data]. *)
Definition V_Map (data : list float) (n : Z) : outcome V :=
  if (0 <=? n) && (n <=? Z.of_nat (length data)) then Ok (take (Z.to_nat n) data)
  else Fail OutOfBounds.

(** A dynamic row-major array: entry [(r, c)] is [data[r * cols + c]]. *)
Record DerivedQuant : Type := {
  dq_rows : Z;
  dq_cols : Z;
  dq_data : list float
}.

(** [DerivedQuant(r, c)]: the constructor leaves the coefficients
    uninitialised; [junk] stands for what the memory happens to hold. *)
Definition DerivedQuant_new (r c : Z) (junk : nat -> float) : DerivedQuant :=
  {| dq_rows := r; dq_cols := c; dq_data := map junk (seq 0 (Z.to_nat (r * c))) |}.

(** [DataBlock::Zero(r, c)]. *)
Definition DataBlock_Zero (r c : Z) : DerivedQuant :=
  {| dq_rows := r; dq_cols := c; dq_data := replicate (Z.to_nat (r * c)) 0%float |}.

(** [Eigen::Map<const DataBlock>(&data[0], r, c)]. *)
Definition DataBlock_Map (data : list float) (r c : Z) : outcome DerivedQuant :=
  if (0 <=? r) && (0 <=? c) && (r * c <=? Z.of_nat (length data))
  then Ok {| dq_rows := r; dq_cols := c; dq_data := take (Z.to_nat (r * c)) data |}
  else Fail OutOfBounds.

(** A callee that was handed [a.data()] has written [f i] at index [i]. *)
Definition written (a : DerivedQuant) (f : nat -> float) : DerivedQuant :=
  {| dq_rows := dq_rows a; dq_cols := dq_cols a;
     dq_data := imap (fun i _ => f i) (dq_data a) |}.

(** [a.block(0, startCol, nrows, 1)] as a column vector.  Eigen's
    [block] checks that the block fits in the array with an assertion of
    its own ([eigen_assert]), which is compiled in whenever the asserts
    of this code are: a block that does not fit aborts there. *)
Definition block_col (a : DerivedQuant) (startCol nrows : Z) : outcome V :=
  if (0 <=? startCol) && (startCol <? dq_cols a) && (0 <=? nrows) && (nrows <=? dq_rows a)
  then mapM (fun r => of_option (dq_data a !! Z.to_nat (r * dq_cols a + startCol)))
         (seqZ 0 nrows)
  else Fail AssertionFailed.

(** *** The collaborators *)

(** [BlackoilState] and [WellState]: plain field accessors. *)
Record BlackoilState : Type := {
  pressure : list float;
  saturation : list float;
  surfacevol : list float;
  state_numPhases : Z
}.

Record WellState : Type := {
  bhp : list float
}.

(** The fluid: what [relperm], [matrix] and [viscosity] write into the
    arrays handed to them, by index. *)
Record BOFluid : Type := {
  fluid_numPhases : Z;
  relperm : Z -> list float -> list Z -> nat -> float;
  matrix : Z -> list float -> list float -> list Z -> (nat -> float) * (nat -> float);
  viscosity : Z -> list float -> list float -> list Z -> nat -> float
}.

(** [struct Wells], the fields read here. *)
Record Wells : Type := {
  number_of_wells : Z;
  well_connpos : list Z;
  well_cells : list Z
}.

(** Modelled from the spec: [HelperOps], the internal-face list and the
    discrete gradient and divergence over internal faces. *)
Record HelperOps : Type := {
  internal_faces : list Z;
  ngrad : M;
  div : M
}.

Record LinearSolverReport : Type := {
  converged : bool
}.

(** [LinearSolverInterface::solve]: from the size, the matrix and the
    right-hand side to the report and what it wrote into [solution], by
    index. *)
Definition LinearSolverInterface : Type :=
  Z -> M -> V -> LinearSolverReport * (nat -> float).

(** *** PressureDependentFluidData *)

Record PressureDependentFluidData : Type := {
  nc_ : Z;
  np_ : Z;
  cells_ : list Z;
  fluid_ : BOFluid;
  A_ : DerivedQuant;
  dA_ : DerivedQuant;
  mu_ : DerivedQuant;
  dmu_ : DerivedQuant;
  kr_ : DerivedQuant;
  zero_ : V;
  one_ : V
}.

(** [buildAllCells], for [0 <= nc]; with a negative [nc] the constructor
    of the vector throws instead. *)
Definition buildAllCells (nc : Z) : list Z := seqZ 0 nc.

(** The constructor. *)
Definition PressureDependentFluidData_new (nc : Z) (fluid : BOFluid) (junk : nat -> float)
    : PressureDependentFluidData :=
  let np := fluid_numPhases fluid in
  {| nc_ := nc;
     np_ := np;
     cells_ := buildAllCells nc;
     fluid_ := fluid;
     A_ := DerivedQuant_new nc (np * np) junk;
     dA_ := DerivedQuant_new nc (np * np) junk;
     mu_ := DerivedQuant_new nc np junk;
     dmu_ := DerivedQuant_new nc np junk;
     kr_ := DerivedQuant_new nc np junk;
     zero_ := V_Zero nc;
     one_ := V_Ones nc |}.

Definition set_kr (d : PressureDependentFluidData) (kr : DerivedQuant)
    : PressureDependentFluidData :=
  {| nc_ := nc_ d; np_ := np_ d; cells_ := cells_ d; fluid_ := fluid_ d;
     A_ := A_ d; dA_ := dA_ d; mu_ := mu_ d; dmu_ := dmu_ d; kr_ := kr;
     zero_ := zero_ d; one_ := one_ d |}.

Definition set_press (d : PressureDependentFluidData) (A dA mu : DerivedQuant)
    : PressureDependentFluidData :=
  {| nc_ := nc_ d; np_ := np_ d; cells_ := cells_ d; fluid_ := fluid_ d;
     A_ := A; dA_ := dA; mu_ := mu; dmu_ := dmu_ d; kr_ := kr_ d;
     zero_ := zero_ d; one_ := one_ d |}.

Definition computeSatQuant (state : BlackoilState) (d : PressureDependentFluidData)
    : outcome PressureDependentFluidData :=
  let s := saturation state in
  _ ← assert_ (Z.of_nat (length s) =? nc_ d * np_ d);
  Ok (set_kr d (written (kr_ d) (relperm (fluid_ d) (nc_ d) s (cells_ d)))).

Definition computePressQuant (state : BlackoilState) (d : PressureDependentFluidData)
    : outcome PressureDependentFluidData :=
  let p := pressure state in
  let z := surfacevol state in
  _ ← assert_ (Z.of_nat (length p) =? nc_ d * 1);
  _ ← assert_ (Z.of_nat (length z) =? nc_ d * np_ d);
  let AdA := matrix (fluid_ d) (nc_ d) p z (cells_ d) in
  Ok (set_press d (written (A_ d) (fst AdA)) (written (dA_ d) (snd AdA))
        (written (mu_ d) (viscosity (fluid_ d) (nc_ d) p z (cells_ d)))).

(** The two Jacobian blocks that [fvf] and [phaseViscosity] build for
    the value [v] with per-cell pressure derivative [dv]. *)
Definition pressure_blocks (v dv : V) (p : ADB) : outcome (list M) :=
  _ ← assert_ (numBlocks p =? 2)%nat;
  let jac0 := spdiag dv in
  p0 ← of_option (blockPattern p !! 0%nat);
  _ ← assert_ (cols jac0 =? p0)%nat;
  p1 ← of_option (blockPattern p !! 1%nat);
  Ok [jac0; zeroM (length v) p1].

Definition fvf (d : PressureDependentFluidData) (phase : Z) (p : ADB) : outcome ADB :=
  _ ← assert_ (0 <=? phase);
  _ ← assert_ (phase <? np_ d);
  A ← block_col (A_ d) (phase * (np_ d + 1)) (nc_ d);
  dA ← block_col (dA_ d) (phase * (np_ d + 1)) (nc_ d);
  jac ← pressure_blocks A dA p;
  f ← function A jac;
  V_div (one_ d) f.

Definition phaseRelPerm (d : PressureDependentFluidData) (phase : Z) : outcome V :=
  block_col (kr_ d) phase (nc_ d).

Definition phaseViscosity (d : PressureDependentFluidData) (phase : Z) (p : ADB)
    : outcome ADB :=
  _ ← assert_ (0 <=? phase);
  _ ← assert_ (phase <? np_ d);
  mu ← block_col (mu_ d) phase (nc_ d);
  dmu ← block_col (dmu_ d) phase (nc_ d);
  jac ← pressure_blocks mu dmu p;
  function mu jac.

(** *** ImpesTPFAAD *)

(** The object.  Of the grid only [number_of_cells] is read here; the
    upwind selector built from the grid, the operators and the face
    potentials acts as multiplication by a selection matrix. *)
Record ImpesTPFAAD : Type := {
  grid_number_of_cells : Z;
  geo_poreVolume : V;
  geo_transmissibility : V;
  wells_ : Wells;
  linsolver_ : LinearSolverInterface;
  pdepfdata_ : PressureDependentFluidData;
  ops_ : HelperOps;
  upwind_ : V -> M;
  cell_residual_ : ADB;
  well_residual_ : ADB
}.

(** The constructor. *)
Definition ImpesTPFAAD_new (number_of_cells : Z) (fluid : BOFluid) (poreVolume transmissibility : V)
    (wells : Wells) (linsolver : LinearSolverInterface) (ops : HelperOps)
    (upwind : V -> M) (junk : nat -> float) : ImpesTPFAAD :=
  {| grid_number_of_cells := number_of_cells;
     geo_poreVolume := poreVolume;
     geo_transmissibility := transmissibility;
     wells_ := wells;
     linsolver_ := linsolver;
     pdepfdata_ := PressureDependentFluidData_new number_of_cells fluid junk;
     ops_ := ops;
     upwind_ := upwind;
     cell_residual_ := null;
     well_residual_ := null |}.

Definition set_pdepfdata (o : ImpesTPFAAD) (d : PressureDependentFluidData) : ImpesTPFAAD :=
  {| grid_number_of_cells := grid_number_of_cells o;
     geo_poreVolume := geo_poreVolume o;
     geo_transmissibility := geo_transmissibility o;
     wells_ := wells_ o; linsolver_ := linsolver_ o;
     pdepfdata_ := d;
     ops_ := ops_ o; upwind_ := upwind_ o;
     cell_residual_ := cell_residual_ o;
     well_residual_ := well_residual_ o |}.

Definition set_cell_residual (o : ImpesTPFAAD) (r : ADB) : ImpesTPFAAD :=
  {| grid_number_of_cells := grid_number_of_cells o;
     geo_poreVolume := geo_poreVolume o;
     geo_transmissibility := geo_transmissibility o;
     wells_ := wells_ o; linsolver_ := linsolver_ o;
     pdepfdata_ := pdepfdata_ o;
     ops_ := ops_ o; upwind_ := upwind_ o;
     cell_residual_ := r;
     well_residual_ := well_residual_ o |}.

(** Modelled from the spec: [upwind.select(x)], the values of the
    per-face upwind donor cells, as multiplication by the selection
    matrix. *)
Definition select (upwind : M) (x : ADB) : outcome ADB := M_mul upwind x.

(** The nest of [for] loops that lists the triplets of [well_to_perf]. *)
Definition well_triplets (wells : Wells) (nperf : nat) : outcome (list (nat * nat * float)) :=
  per_well ← mapM (fun w =>
      lo ← of_option (well_connpos wells !! Z.to_nat w);
      hi ← of_option (well_connpos wells !! Z.to_nat (w + 1));
      mapM (fun perf =>
              if (0 <=? perf) && (perf <? Z.of_nat nperf)
              then Ok ((Z.to_nat perf, Z.to_nat w), 1.0%float)
              else Fail OutOfBounds)
           (seqZ lo (hi - lo)))
    (seqZ 0 (number_of_wells wells));
  Ok (concat per_well).

(** One round of the [for] loop over the phases: the new
    [cell_residual_]. *)
Definition assemble_phase (o : ImpesTPFAAD) (d : PressureDependentFluidData)
    (pv delta_t : V) (z0all qall : DerivedQuant) (upwind : M) (p nkgradp : ADB)
    (cell_residual : ADB) (phase : Z) : outcome ADB :=
  let nc := grid_number_of_cells o in
  cell_B ← fvf d phase p;
  kr ← phaseRelPerm d phase;
  mu ← phaseViscosity d phase p;
  kr_mu ← V_div kr mu;
  mf ← select upwind kr_mu;
  flux ← ADB_mul mf nkgradp;
  face_B ← select upwind cell_B;
  z0 ← block_col z0all phase nc;
  q ← block_col qall phase nc;
  pvz0 ← V_zip PrimFloat.mul pv z0;
  flux_B ← ADB_div flux face_B;
  divflux ← M_mul (div (ops_ o)) flux_B;
  qd ← V_sub q divflux;
  dtqd ← V_mul delta_t qd;
  component_contrib ← V_add pvz0 dtqd;
  contrib ← ADB_mul cell_B component_contrib;
  ADB_sub cell_residual contrib.

Fixpoint assemble_phases (o : ImpesTPFAAD) (d : PressureDependentFluidData)
    (pv delta_t : V) (z0all qall : DerivedQuant) (upwind : M) (p nkgradp : ADB)
    (cell_residual : ADB) (phases : list Z) : outcome ADB :=
  match phases with
  | [] => Ok cell_residual
  | phase :: phases' =>
      r ← assemble_phase o d pv delta_t z0all qall upwind p nkgradp cell_residual phase;
      assemble_phases o d pv delta_t z0all qall upwind p nkgradp r phases'
  end.

Definition assemble (dt : float) (state : BlackoilState) (well_state : WellState)
    (o : ImpesTPFAAD) : outcome ImpesTPFAAD :=
  let pv := geo_poreVolume o in
  let nc := grid_number_of_cells o in
  let np := state_numPhases state in
  let nw := number_of_wells (wells_ o) in
  d ← computePressQuant state (pdepfdata_ o);
  let o := set_pdepfdata o d in
  z0all ← DataBlock_Map (surfacevol state) nc np;
  let qall := DataBlock_Zero nc np in
  let delta_t := V_lscale dt (V_Ones nc) in
  transi ← subset_V (geo_transmissibility o) (internal_faces (ops_ o));
  nperf ← of_option (well_connpos (wells_ o) !! Z.to_nat nw);
  _ ← (if (0 <=? nw) && (0 <=? nperf) && (nperf <=? Z.of_nat (length (well_cells (wells_ o))))
       then Ok tt else Fail OutOfBounds);
  let well_cells := take (Z.to_nat nperf) (well_cells (wells_ o)) in
  p0 ← V_Map (pressure state) nc;
  bhp0 ← V_Map (bhp well_state) nw;
  let vars := variables [p0; bhp0] in
  p ← of_option (vars !! 0%nat);
  bhp ← of_option (vars !! 1%nat);
  let bpat := blockPattern p in
  gradp ← M_mul (ngrad (ops_ o)) p;
  nkgradp ← V_mul transi gradp;
  let upwind := upwind_ o (val nkgradp) in
  p_perfcell ← subset p well_cells;
  w2p ← well_triplets (wells_ o) (length well_cells);
  let well_to_perf := fromTriplets (length well_cells) (Z.to_nat nw) w2p in
  let well_perf_dp := V_Zero (Z.of_nat (length well_cells)) in
  wbhp ← M_mul well_to_perf bhp;
  p_perfwell ← add_V wbhp well_perf_dp;
  r ← assemble_phases o d pv delta_t z0all qall upwind p nkgradp
        (constant pv bpat) (seqZ 0 np);
  Ok (set_cell_residual o r).

(** How [solve] can end when it does not abort: by returning or by an
    exception, which leaves the object and the state behind as they are
    at the [THROW]. *)
Inductive Completion : Type :=
| Returned
| Threw (what : string).

(** What [solve] leaves behind: the object, the state, and how many
    times the linear solver was called. *)
Record Solved : Type := {
  object_after : ImpesTPFAAD;
  state_after : BlackoilState;
  linear_solves : nat;
  completion : Completion
}.

Definition set_pressure (state : BlackoilState) (p : list float) : BlackoilState :=
  {| pressure := p;
     saturation := saturation state;
     surfacevol := surfacevol state;
     state_numPhases := state_numPhases state |}.

(** The cell pressures after the update [p = p0 - dp] of the first [nc]
    entries. *)
Definition updated_pressure (nc : Z) (pressure : list float) (dp : nat -> float)
    : list float :=
  zip_with PrimFloat.sub (take (Z.to_nat nc) pressure) (map dp (seq 0 (Z.to_nat nc)))
  ++ drop (Z.to_nat nc) pressure.

(** [std::copy(first, last, dest)] over the leading entries of [dest]. *)
Definition copy_into (src dest : list float) : outcome (list float) :=
  if (length src <=? length dest)%nat then Ok (src ++ drop (length src) dest)
  else Fail OutOfBounds.

Definition solve (dt : float) (state : BlackoilState) (well_state : WellState)
    (o : ImpesTPFAAD) : outcome Solved :=
  d ← computeSatQuant state (pdepfdata_ o);
  let o := set_pdepfdata o d in
  o ← assemble dt state well_state o;
  let nc := grid_number_of_cells o in
  matr ← of_option (jac (cell_residual_ o) !! 0%nat);
  p0 ← V_Map (pressure state) nc;
  let '(rep, solution) := linsolver_ o nc matr (val (cell_residual_ o)) in
  let dp := map solution (seq 0 (Z.to_nat nc)) in
  if negb (converged rep) then
    Ok {| object_after := o;
          state_after := state;
          linear_solves := 1;
          completion := Threw "ImpesTPFAAD::solve(): Linear solver convergence failure." |}
  else
    p ← V_zip PrimFloat.sub p0 dp;
    pressure' ← copy_into p (pressure state);
    Ok {| object_after := o;
          state_after := set_pressure state pressure';
          linear_solves := 1;
          completion := Returned |}.

(** *** A single cell, a single phase and a single well *)

(** [A = 2], [dA/dp = 1], relative permeability 1 and viscosity 4 in
    the cell. *)
Definition cell_fluid : BOFluid :=
  {| fluid_numPhases := 1;
     relperm := fun _ _ _ _ => 1.0%float;
     matrix := fun _ _ _ _ => (fun _ => 2.0%float, fun _ => 1.0%float);
     viscosity := fun _ _ _ _ _ => 4.0%float |}.

Definition cell_wells : Wells :=
  {| number_of_wells := 1; well_connpos := [0; 1]; well_cells := [0] |}.

(** No internal face. *)
Definition cell_ops : HelperOps :=
  {| internal_faces := []; ngrad := zeroM 0 1; div := zeroM 1 0 |}.

(** A backend that writes 0.5 everywhere and reports [converged]. *)
Definition cell_linsolver (converged : bool) : LinearSolverInterface :=
  fun _ _ _ => ({| converged := converged |}, fun _ => 0.5%float).

Definition cell_impes (converged : bool) : ImpesTPFAAD :=
  ImpesTPFAAD_new 1 cell_fluid [1.0%float] [] cell_wells (cell_linsolver converged)
    cell_ops (fun _ => zeroM 0 1) (fun _ => 7.0%float).

Definition cell_state : BlackoilState :=
  {| pressure := [10.0%float];
     saturation := [1.0%float];
     surfacevol := [1.0%float];
     state_numPhases := 1 |}.

Definition cell_well_state : WellState := {| bhp := [5.0%float] |}.

(** The adapter of the cell after [computeSatQuant] and
    [computePressQuant]. *)
Definition cell_data : PressureDependentFluidData :=
  set_press
    (set_kr (pdepfdata_ (cell_impes true))
       {| dq_rows := 1; dq_cols := 1; dq_data := [1.0%float] |})
    {| dq_rows := 1; dq_cols := 1; dq_data := [2.0%float] |}
    {| dq_rows := 1; dq_cols := 1; dq_data := [1.0%float] |}
    {| dq_rows := 1; dq_cols := 1; dq_data := [4.0%float] |}.

(** The cell pressure as the first of the two AD variables. *)
Definition cell_p : ADB := variable 0 [10.0%float] [1%nat; 1%nat].

(** *** Shapes of the arrays *)

(** The array is [r] by [c] and holds [r * c] coefficients. *)
Definition shaped (a : DerivedQuant) (r c : Z) : Prop :=
  dq_rows a = r /\ dq_cols a = c /\ length (dq_data a) = Z.to_nat (r * c).

(** The adapter is as its constructor allocates it: the arrays have the
    shapes of the initialiser list, [cells_] is [buildAllCells(nc)] and
    [one_] is [V::Ones(nc, 1)]. *)
Definition allocated (d : PressureDependentFluidData) : Prop :=
  0 <= nc_ d /\ 0 <= np_ d
  /\ shaped (A_ d) (nc_ d) (np_ d * np_ d)
  /\ shaped (dA_ d) (nc_ d) (np_ d * np_ d)
  /\ shaped (mu_ d) (nc_ d) (np_ d)
  /\ shaped (dmu_ d) (nc_ d) (np_ d)
  /\ shaped (kr_ d) (nc_ d) (np_ d)
  /\ cells_ d = buildAllCells (nc_ d)
  /\ one_ d = V_Ones (nc_ d).

(** Column [col] of what a callee wrote by index into an array with
    [cols] columns, over the first [nrows] rows. *)
Definition written_col (f : nat -> float) (cols col nrows : Z) : V :=
  map (fun r => f (Z.to_nat (r * cols + col))) (seqZ 0 nrows).

End Impes.

(** * Properties *)

(** ** Floating point *)

Lemma SFabs_round_aux prec emax s m e l :
  SFabs (binary_round_aux prec emax s m e l) = binary_round_aux prec emax false m e l.
Proof.
  unfold binary_round_aux.
  destruct (shr_fexp prec emax m e l) as [mrs' e'].
  destruct (shr_fexp prec emax _ e' loc_Exact) as [mrs'' e''].
  destruct (shr_m mrs''); try reflexivity.
  destruct (e'' <=? emax - prec); reflexivity.
Qed.

Lemma SFabs_div prec emax a b :
  SFabs (SFdiv prec emax a b) = SFdiv prec emax (SFabs a) (SFabs b).
Proof.
  destruct a as [sa|sa| |sa ma ea], b as [sb|sb| |sb mb eb]; try reflexivity.
  cbn [SFdiv SFabs].
  destruct (SFdiv_core_binary prec emax (Z.pos ma) ea (Z.pos mb) eb) as [[mz ez] lz].
  rewrite SFabs_round_aux. reflexivity.
Qed.

(** The absolute value of a quotient is the quotient of the absolute
    values, bit for bit. *)
Lemma abs_div (x y : float) : abs (x / y) = (abs x / abs y)%float.
Proof.
  apply Prim2SF_inj. rewrite abs_spec, !div_spec, !abs_spec. apply SFabs_div.
Qed.

Lemma abs_div_norm (x y : float) : NewtonSolver.is_norm y -> abs (x / y) = (abs x / y)%float.
Proof. intros Hy. rewrite abs_div, Hy. reflexivity. Qed.

(** ** Oscillation detection *)

Section Detect.
Import NewtonSolver.
Variables (F0 F1 F2 : list float) (tol : float).

Lemma detect_phase_flagged acc p f0 f1 f2 :
  F0 !! p = Some f0 -> F1 !! p = Some f1 -> F2 !! p = Some f2 -> is_norm f0 ->
  exists stagnate,
    detect_phase F0 F1 F2 tol acc p
    = Ok (fst acc + (if phase_flagged tol F0 F1 F2 p then 1 else 0), stagnate).
Proof.
  intros H0 H1 H2 Hn. unfold detect_phase, phase_flagged.
  rewrite H0, H1, H2. cbn.
  rewrite !(abs_div_norm _ f0 Hn). eexists. reflexivity.
Qed.

Lemma detect_phases_flagged ps : forall acc,
  Forall (fun p => (p < length F0)%nat /\ (p < length F1)%nat /\ (p < length F2)%nat) ps ->
  Forall is_norm F0 ->
  exists stagnate,
    detect_phases F0 F1 F2 tol acc ps
    = Ok (fst acc + Z.of_nat (length (List.filter (phase_flagged tol F0 F1 F2) ps)), stagnate).
Proof.
  induction ps as [|p ps IH]; intros acc Hps Hn.
  - exists (snd acc). cbn. rewrite Z.add_0_r. destruct acc; reflexivity.
  - inversion Hps as [|? ? (Hp0 & Hp1 & Hp2) Hps']; subst.
    destruct (lookup_lt_is_Some_2 F0 p Hp0) as [f0 E0].
    destruct (lookup_lt_is_Some_2 F1 p Hp1) as [f1 E1].
    destruct (lookup_lt_is_Some_2 F2 p Hp2) as [f2 E2].
    assert (Hf0 : is_norm f0).
    { eapply Forall_lookup_1; eassumption. }
    destruct (detect_phase_flagged acc p f0 f1 f2 E0 E1 E2 Hf0) as [st Est].
    cbn [detect_phases]. rewrite Est. cbn.
    destruct (IH (fst acc + (if phase_flagged tol F0 F1 F2 p then 1 else 0), st) Hps' Hn)
      as [st' Est'].
    exists st'. rewrite Est'. cbn [fst]. f_equal. f_equal.
    destruct (phase_flagged tol F0 F1 F2 p); cbn [length]; lia.
Qed.
End Detect.

(** C2. Oscillation detection is inactive for [it < 2]; from [it = 2] on,
    over a history of residual norms, the round of a phase [p] counts it
    as oscillating exactly when [|F0-F2|/F0 < tol < |F0-F1|/F0], with
    [F0], [F1], [F2] the snapshots at [it], [it - 1] and [it - 2], and
    the step is reported oscillating exactly when more than one phase
    is. *)
Theorem detectNewtonOscillations_spec
    (np : Z) (residual_history : list (list float)) (it : Z) (tol : float) :
  (2 <= it ->
   NewtonSolver.norm_history np residual_history
   /\ it < Z.of_nat (length residual_history)) ->
  (exists stagnate,
     NewtonSolver.detectNewtonOscillations np residual_history it tol
     = Ok (NewtonSolver.step_oscillating np residual_history it tol, stagnate)
     /\ (it < 2 -> stagnate = false))
  /\ (2 <= it ->
      exists F0 F1 F2,
        residual_history !! Z.to_nat it = Some F0
        /\ residual_history !! Z.to_nat (it - 1) = Some F1
        /\ residual_history !! Z.to_nat (it - 2) = Some F2
        /\ forall oscillatePhase stagnate (p : nat),
             (p < Z.to_nat np)%nat ->
             exists stagnate',
               NewtonSolver.detect_phase F0 F1 F2 tol (oscillatePhase, stagnate) p
               = Ok (oscillatePhase
                     + (if NewtonSolver.phase_flagged tol F0 F1 F2 p then 1 else 0),
                     stagnate')).
Proof.
  intros Hh.
  unfold NewtonSolver.detectNewtonOscillations, NewtonSolver.step_oscillating.
  destruct (it <? 2) eqn:Hit.
  - apply Z.ltb_lt in Hit. split; [|lia].
    exists false. split; reflexivity.
  - apply Z.ltb_ge in Hit. destruct (Hh Hit) as [Hn Hlen].
    destruct (lookup_lt_is_Some_2 residual_history (Z.to_nat it)) as [F0 E0]; [lia|].
    destruct (lookup_lt_is_Some_2 residual_history (Z.to_nat (it - 1))) as [F1 E1]; [lia|].
    destruct (lookup_lt_is_Some_2 residual_history (Z.to_nat (it - 2))) as [F2 E2]; [lia|].
    rewrite E0, E1, E2. cbn.
    destruct (Forall_lookup_1 _ _ _ _ Hn E0) as [L0 N0].
    destruct (Forall_lookup_1 _ _ _ _ Hn E1) as [L1 _].
    destruct (Forall_lookup_1 _ _ _ _ Hn E2) as [L2 _].
    split.
    + destruct (detect_phases_flagged F0 F1 F2 tol (seq 0 (Z.to_nat np)) (0, true))
        as [st Est]; [|exact N0|].
      { apply Forall_forall. intros p Hp. apply elem_of_seq in Hp. lia. }
      rewrite Est. cbn. exists st. split; [reflexivity | lia].
    + intros _. exists F0, F1, F2. repeat split; try reflexivity.
      intros c st p Hp.
      destruct (lookup_lt_is_Some_2 F0 p) as [f0 Ef0]; [lia|].
      destruct (lookup_lt_is_Some_2 F1 p) as [f1 Ef1]; [lia|].
      destruct (lookup_lt_is_Some_2 F2 p) as [f2 Ef2]; [lia|].
      apply (detect_phase_flagged F0 F1 F2 tol (c, st) p f0 f1 f2 Ef0 Ef1 Ef2).
      eapply Forall_lookup_1; eassumption.
Qed.

(** The theorem at a two-phase history in which both phases alternate. *)
Lemma detectNewtonOscillations_spec_witness :
  (exists stagnate,
     NewtonSolver.detectNewtonOscillations 2 NewtonSolver.alternating_history 2 0.2
     = Ok (NewtonSolver.step_oscillating 2 NewtonSolver.alternating_history 2 0.2,
           stagnate)
     /\ (2 < 2 -> stagnate = false))
  /\ (2 <= 2 ->
      exists F0 F1 F2,
        NewtonSolver.alternating_history !! Z.to_nat 2 = Some F0
        /\ NewtonSolver.alternating_history !! Z.to_nat (2 - 1) = Some F1
        /\ NewtonSolver.alternating_history !! Z.to_nat (2 - 2) = Some F2
        /\ forall oscillatePhase stagnate (p : nat),
             (p < Z.to_nat 2)%nat ->
             exists stagnate',
               NewtonSolver.detect_phase F0 F1 F2 0.2 (oscillatePhase, stagnate) p
               = Ok (oscillatePhase
                     + (if NewtonSolver.phase_flagged 0.2 F0 F1 F2 p then 1 else 0),
                     stagnate')).
Proof.
  apply (detectNewtonOscillations_spec 2 NewtonSolver.alternating_history 2 0.2).
  intros _. split; [|cbn; lia].
  repeat constructor; cbn; try lia; reflexivity.
Defined.

(** On that history the step is reported oscillating. *)
Lemma alternating_history_oscillates :
  NewtonSolver.detectNewtonOscillations 2 NewtonSolver.alternating_history 2 0.2
  = Ok (true, false).
Proof. vm_compute. reflexivity. Qed.

(** C3, as stated, fails: with one active phase the alternating history
    is not reported as an oscillating step. *)
Lemma single_phase_not_reported :
  ~ exists stagnate,
      NewtonSolver.detectNewtonOscillations 1 [[1.0]; [0.5]; [0.9]]%float 2 0.2
      = Ok (true, stagnate).
Proof. intros [st H]. vm_compute in H. discriminate H. Qed.

(** C3, amended.  On [F2=[1.0], F1=[0.5], F0=[0.9]] with tolerance [0.2]
    the single phase is flagged, but one flagged phase does not make the
    step oscillating; on [F2=[1.0], F1=[0.9], F0=[0.8]] the phase is not
    flagged and the step is not oscillating. *)
Theorem single_phase_histories :
  NewtonSolver.flagged_phases 0.2 1 [0.9]%float [0.5]%float [1.0]%float = [0%nat]
  /\ NewtonSolver.detect_phases [0.9]%float [0.5]%float [1.0]%float 0.2 (0, true) [0%nat]
     = Ok (1, false)
  /\ NewtonSolver.detectNewtonOscillations 1 [[1.0]; [0.5]; [0.9]]%float 2 0.2
     = Ok (false, false)
  /\ NewtonSolver.flagged_phases 0.2 1 [0.8]%float [0.9]%float [1.0]%float = []
  /\ NewtonSolver.detectNewtonOscillations 1 [[1.0]; [0.9]; [0.8]]%float 2 0.2
     = Ok (false, false).
Proof. repeat split; vm_compute; reflexivity. Qed.

(** ** Relaxation *)

(** C6, as stated, fails: with [omega = 1.0] the stored previous update
    is overwritten. *)
Lemma dampen_one_overwrites_dxOld :
  ~ (NewtonSolver.stabilizeNewton [1.0]%float [0.0]%float 1.0 NewtonSolver.DAMPEN
     = Ok ([1.0]%float, [0.0]%float)).
Proof. vm_compute. discriminate. Qed.

(** C6, amended.  Damping with [omega = 0.5] multiplies every component of
    [dx] by 0.5; with [omega = 1.0] it returns [dx] unchanged; in both
    cases the stored previous update becomes the incoming [dx]. *)
Theorem stabilizeNewton_dampen (dx dxOld : V) :
  NewtonSolver.stabilizeNewton dx dxOld 0.5 NewtonSolver.DAMPEN
  = Ok (map (fun x => (x * 0.5)%float) dx, dx)
  /\ NewtonSolver.stabilizeNewton dx dxOld 1.0 NewtonSolver.DAMPEN = Ok (dx, dx).
Proof. split; reflexivity. Qed.

(** ** The Newton loop *)

Section StepFacts.
Import NewtonSolver.
Context {S : Type} (model : PhysicalModel S) (solver : Solver S).

Lemma count_app f a b : count f (a ++ b) = count f a + count f b.
Proof. unfold count. rewrite List.filter_app, length_app. lia. Qed.

Lemma grows_refl tr : grows tr tr 0.
Proof. exists []. rewrite app_nil_r. repeat split; reflexivity. Qed.

Lemma grows_trans tr tr' tr'' k k' :
  grows tr tr' k -> grows tr' tr'' k' -> grows tr tr'' (k + k').
Proof.
  intros (e & -> & A1 & A2 & A3 & A4) (e' & -> & B1 & B2 & B3 & B4).
  exists (e ++ e'). rewrite app_assoc, !count_app. repeat split; lia.
Qed.

Ltac exec_unfold :=
  unfold report in *;
  unfold mbind, Exec_bind, mret, Exec_ret, call, call_, query, print, lift in *;
  cbn [fst snd] in *.

Lemma relax_run osc w s tr :
  relax model solver osc w (s, tr)
  = Ok (relaxed solver osc w,
        (s, tr ++ if osc && terminalOutputEnabled model s
                  then [PrintRelaxation (relaxed solver osc w)] else [])).
Proof.
  unfold relax, relaxed. exec_unfold. destruct osc; cbn.
  - destruct (terminalOutputEnabled model s); cbn; [reflexivity|].
    rewrite app_nil_r. reflexivity.
  - rewrite app_nil_r. reflexivity.
Qed.

(** The body of the loop in state-passing form. *)
Lemma newton_iteration_run dt lv s tr :
  newton_iteration model solver dt lv (s, tr)
  = let '(dx, s1) := solveJacobianSystem model s in
    match detectNewtonOscillations (numPhases model s1) (residual_norms_history lv)
            (iteration lv) (relaxRelTol solver) with
    | Fail f => Fail f
    | Ok (osc, stag) =>
        let w := relaxed solver osc (omega lv) in
        match stabilizeNewton dx (dxOld lv) w (relaxType solver) with
        | Fail f => Fail f
        | Ok (dx', dxOld') =>
            let '(norms, s2) :=
              computeResidualNorms model (assemble model false (updateState model dx' s1)) in
            let '(conv, s3) := getConvergence model dt (iteration lv + 1) s2 in
            Ok ({| omega := w;
                   iteration := iteration lv + 1;
                   converged := conv;
                   dxOld := dxOld';
                   isOscillate := osc;
                   isStagnate := stag;
                   linearIterations :=
                     linearIterations lv + linearIterationsLastSolve model s1;
                   residual_norms_history := residual_norms_history lv ++ [norms] |},
                (s3, tr ++ [CallSolveJacobianSystem]
                        ++ (if osc && terminalOutputEnabled model s1
                            then [PrintRelaxation w] else [])
                        ++ [CallUpdateState dx'; CallAssemble false;
                            CallComputeResidualNorms;
                            CallGetConvergence (iteration lv + 1)]))
        end
    end.
Proof.
  unfold newton_iteration. exec_unfold.
  destruct (solveJacobianSystem model s) as [dx s1].
  destruct (detectNewtonOscillations _ _ _ _) as [[osc stag]|f]; [|reflexivity].
  rewrite relax_run.
  destruct (stabilizeNewton _ _ _ _) as [[dx' dxOld']|f]; [|reflexivity].
  cbn [fst snd].
  destruct (computeResidualNorms model _) as [norms s2].
  cbn [fst snd].
  destruct (getConvergence model dt _ s2) as [conv s3].
  rewrite <- !app_assoc. reflexivity.
Qed.

Lemma stabilizeNewton_dxOld dx dxOld w rt dx' dxOld' :
  stabilizeNewton dx dxOld w rt = Ok (dx', dxOld') ->
  dxOld' = dx /\ length dx' = length dx.
Proof.
  unfold stabilizeNewton, V_zip, V_scale, V_lscale. intros H.
  destruct rt; destruct (w =? 1)%float; cbn in H.
  1-3: inversion H; subst; rewrite ?length_map; auto.
  destruct (_ =? _)%nat eqn:E; cbn in H; inversion H; subst.
  apply Nat.eqb_eq in E. rewrite !length_map in E.
  split; [reflexivity|]. rewrite length_zip_with, !length_map. lia.
Qed.

Lemma stabilizeNewton_defined dx dxOld w rt :
  length dx = length dxOld -> exists dx', stabilizeNewton dx dxOld w rt = Ok (dx', dx).
Proof.
  intros E. unfold stabilizeNewton, V_zip, V_scale, V_lscale.
  destruct rt; destruct (w =? 1)%float; cbn; eauto.
  rewrite !length_map, E, Nat.eqb_refl. cbn. eauto.
Qed.

(** What a round of the loop that completes has done. *)
Lemma newton_iteration_trace dt lv s tr lv' s' tr' :
  newton_iteration model solver dt lv (s, tr) = Ok (lv', (s', tr')) ->
  grows tr tr' 1
  /\ iteration lv' = iteration lv + 1
  /\ (exists s0, converged lv' = fst (getConvergence model dt (iteration lv + 1) s0))
  /\ (exists s0, linearIterations lv'
                 = linearIterations lv + linearIterationsLastSolve model s0).
Proof.
  rewrite newton_iteration_run.
  destruct (solveJacobianSystem model s) as [dx s1].
  destruct (detectNewtonOscillations _ _ _ _) as [[osc stag]|f]; [|discriminate].
  cbn zeta.
  destruct (stabilizeNewton _ _ _ _) as [[dx' dxOld']|f]; [|discriminate].
  destruct (computeResidualNorms model _) as [norms s2].
  destruct (getConvergence model dt _ s2) as [conv s3] eqn:Econv.
  intros H. inversion H; subst; clear H. cbn.
  split; [|split; [reflexivity|split]].
  - eexists. split; [reflexivity|].
    destruct (osc && _); repeat split; reflexivity.
  - exists s2. rewrite Econv. reflexivity.
  - exists s1. reflexivity.
Qed.

Lemma detect_phases_defined F0 F1 F2 tol ps : forall acc,
  Forall (fun p => (p < length F0)%nat /\ (p < length F1)%nat /\ (p < length F2)%nat) ps ->
  exists r, detect_phases F0 F1 F2 tol acc ps = Ok r.
Proof.
  induction ps as [|p ps IH]; intros acc Hps; [eexists; reflexivity|].
  inversion Hps as [|? ? (Hp0 & Hp1 & Hp2) Hps']; subst.
  destruct (lookup_lt_is_Some_2 F0 p Hp0) as [f0 E0].
  destruct (lookup_lt_is_Some_2 F1 p Hp1) as [f1 E1].
  destruct (lookup_lt_is_Some_2 F2 p Hp2) as [f2 E2].
  cbn [detect_phases]. unfold detect_phase. rewrite E0, E1, E2. cbn.
  apply IH, Hps'.
Qed.

Lemma detectNewtonOscillations_defined np hist it tol :
  Z.of_nat (length hist) = it + 1 ->
  Forall (fun F => np <= Z.of_nat (length F)) hist ->
  exists r, detectNewtonOscillations np hist it tol = Ok r.
Proof.
  intros Hlen Hh. unfold detectNewtonOscillations.
  destruct (it <? 2) eqn:Hit; [eexists; reflexivity|].
  apply Z.ltb_ge in Hit.
  destruct (lookup_lt_is_Some_2 hist (Z.to_nat it)) as [F0 E0]; [lia|].
  destruct (lookup_lt_is_Some_2 hist (Z.to_nat (it - 1))) as [F1 E1]; [lia|].
  destruct (lookup_lt_is_Some_2 hist (Z.to_nat (it - 2))) as [F2 E2]; [lia|].
  rewrite E0, E1, E2. cbn.
  pose proof (Forall_lookup_1 _ _ _ _ Hh E0) as L0.
  pose proof (Forall_lookup_1 _ _ _ _ Hh E1) as L1.
  pose proof (Forall_lookup_1 _ _ _ _ Hh E2) as L2.
  destruct (detect_phases_defined F0 F1 F2 tol (seq 0 (Z.to_nat np)) (0, true))
    as [[c st] Er].
  { apply Forall_forall. intros p Hp. apply elem_of_seq in Hp. cbn beta in *. lia. }
  rewrite Er. cbn. eexists. reflexivity.
Qed.

(** A round of the loop over a sized model completes and keeps the
    invariant. *)
Lemma newton_iteration_defined np n dt lv s tr :
  sized_model model np n -> loop_inv np n lv ->
  exists lv' s' tr',
    newton_iteration model solver dt lv (s, tr) = Ok (lv', (s', tr'))
    /\ loop_inv np n lv'.
Proof.
  intros Hm (Hit & Hlen & Hh & Hdx).
  rewrite newton_iteration_run.
  destruct (solveJacobianSystem model s) as [dx s1] eqn:Esolve.
  rewrite (sized_phases _ _ _ Hm).
  destruct (detectNewtonOscillations_defined np _ _ (relaxRelTol solver) Hlen Hh)
    as [[osc stag] Edet].
  rewrite Edet. cbn zeta.
  assert (Hdxlen : length dx = n).
  { pose proof (sized_update _ _ _ Hm s) as H. rewrite Esolve in H. exact H. }
  destruct (stabilizeNewton_defined dx (dxOld lv) (relaxed solver osc (omega lv))
              (relaxType solver)) as [dx' Estab]; [congruence|].
  rewrite Estab.
  destruct (computeResidualNorms model _) as [norms s2] eqn:Enorms.
  destruct (getConvergence model dt _ s2) as [conv s3].
  do 3 eexists. split; [reflexivity|].
  unfold loop_inv. cbn. rewrite length_app, Forall_app. cbn.
  repeat split; try lia; try assumption.
  constructor; [|constructor].
  pose proof (sized_norms _ _ _ Hm (assemble model false (updateState model dx' s1))) as H.
  rewrite Enorms in H. exact H.
Qed.

Lemma loop_condition_bound lv :
  loop_condition solver lv = true ->
  iteration lv < Z.max (maxIter solver) (minIter solver).
Proof.
  unfold loop_condition. intros H. apply orb_true_iff in H as [H|H].
  - apply andb_true_iff in H as [_ H]. apply Z.ltb_lt in H. lia.
  - apply Z.gtb_lt in H. lia.
Qed.

(** What a run of the loop that completes has done. *)
Lemma newton_loop_trace dt fuel : forall lv s tr lv' s' tr',
  newton_loop model solver fuel dt lv (s, tr) = Ok (lv', (s', tr')) ->
  grows tr tr' (iteration lv' - iteration lv)
  /\ loop_condition solver lv' = false
  /\ iteration lv <= iteration lv'
  /\ iteration lv' <= Z.max (iteration lv) (Z.max (maxIter solver) (minIter solver))
  /\ (never_converges model -> converged lv = false -> converged lv' = false)
  /\ ((forall s0, 0 <= linearIterationsLastSolve model s0) ->
      linearIterations lv <= linearIterations lv').
Proof.
  induction fuel as [|fuel IH]; intros lv s tr lv' s' tr' H; cbn [newton_loop] in H;
    destruct (loop_condition solver lv) eqn:Hc.
  - discriminate H.
  - inversion H; subst. rewrite Z.sub_diag.
    repeat split; auto using grows_refl; lia.
  - exec_unfold.
    destruct (newton_iteration model solver dt lv (s, tr)) as [[lv1 [s1 tr1]]|f] eqn:E1;
      [|discriminate H].
    apply newton_iteration_trace in E1 as (G1 & I1 & (s0 & C1) & (s0' & L1)).
    apply IH in H as (G & Hc' & Hle & Hub & Hnc & Hlin).
    apply loop_condition_bound in Hc.
    repeat split; try lia; try assumption.
    + replace (iteration lv' - iteration lv) with (1 + (iteration lv' - iteration lv1)) by lia.
      eapply grows_trans; eassumption.
    + intros Hn _. apply Hnc; [assumption|]. rewrite C1. apply Hn.
    + intros Hpos. specialize (Hlin Hpos). specialize (Hpos s0'). lia.
  - inversion H; subst. rewrite Z.sub_diag.
    repeat split; auto using grows_refl; lia.
Qed.

(** The loop over a sized model completes within the bound on its
    rounds. *)
Lemma newton_loop_defined np n dt fuel : forall lv s tr,
  sized_model model np n -> loop_inv np n lv ->
  Z.max (maxIter solver) (minIter solver) - iteration lv <= Z.of_nat fuel ->
  exists lv' s' tr', newton_loop model solver fuel dt lv (s, tr) = Ok (lv', (s', tr')).
Proof.
  induction fuel as [|fuel IH]; intros lv s tr Hm Hinv Hfuel; cbn [newton_loop];
    destruct (loop_condition solver lv) eqn:Hc; try (do 3 eexists; reflexivity).
  - apply loop_condition_bound in Hc. lia.
  - exec_unfold.
    destruct (newton_iteration_defined np n dt lv s tr Hm Hinv)
      as (lv1 & s1 & tr1 & E1 & Hinv1).
    rewrite E1.
    apply newton_iteration_trace in E1 as (_ & I1 & _).
    apply IH; [assumption..|lia].
Qed.

(** Whatever the model, the only failure inside the loop is a read or a
    blend out of range: never the bound on the rounds. *)
Lemma detect_phases_failure F0 F1 F2 tol ps : forall acc f,
  detect_phases F0 F1 F2 tol acc ps = Fail f -> f = OutOfBounds.
Proof.
  induction ps as [|p ps IH]; intros acc f H; cbn [detect_phases] in H; [discriminate|].
  unfold detect_phase in H.
  destruct (F0 !! p); cbn in H; [|inversion H; reflexivity].
  destruct (F1 !! p); cbn in H; [|inversion H; reflexivity].
  destruct (F2 !! p); cbn in H; [|inversion H; reflexivity].
  eapply IH, H.
Qed.

Lemma detectNewtonOscillations_failure np hist it tol f :
  detectNewtonOscillations np hist it tol = Fail f -> f = OutOfBounds.
Proof.
  unfold detectNewtonOscillations. destruct (it <? 2); [discriminate|].
  destruct (hist !! Z.to_nat it); cbn; [|intros H; inversion H; reflexivity].
  destruct (hist !! Z.to_nat (it - 1)); cbn; [|intros H; inversion H; reflexivity].
  destruct (hist !! Z.to_nat (it - 2)); cbn; [|intros H; inversion H; reflexivity].
  destruct (detect_phases _ _ _ _ _ _) as [[c st]|f'] eqn:E; cbn; [discriminate|].
  intros H. inversion H; subst. eapply detect_phases_failure, E.
Qed.

Lemma stabilizeNewton_failure dx dxOld w rt f :
  stabilizeNewton dx dxOld w rt = Fail f -> f = OutOfBounds.
Proof.
  unfold stabilizeNewton, V_zip. destruct rt; destruct (w =? 1)%float; try discriminate.
  destruct (_ =? _)%nat; cbn; [discriminate|]. intros H. inversion H. reflexivity.
Qed.

Lemma newton_iteration_failure dt lv st f :
  newton_iteration model solver dt lv st = Fail f -> f = OutOfBounds.
Proof.
  destruct st as [s tr]. rewrite newton_iteration_run.
  destruct (solveJacobianSystem model s) as [dx s1].
  destruct (detectNewtonOscillations _ _ _ _) as [[osc stag]|f'] eqn:Ed.
  - cbn zeta.
    destruct (stabilizeNewton _ _ _ _) as [[dx' dxOld']|f''] eqn:Es.
    + destruct (computeResidualNorms model _) as [norms s2].
      destruct (getConvergence model dt _ s2) as [conv s3]. discriminate.
    + intros H. inversion H; subst. eapply stabilizeNewton_failure, Es.
  - intros H. inversion H; subst. eapply detectNewtonOscillations_failure, Ed.
Qed.

Lemma newton_loop_failure dt fuel : forall lv st f,
  Z.max (maxIter solver) (minIter solver) - iteration lv <= Z.of_nat fuel ->
  newton_loop model solver fuel dt lv st = Fail f -> f = OutOfBounds.
Proof.
  induction fuel as [|fuel IH]; intros lv st f Hfuel H; cbn [newton_loop] in H;
    destruct (loop_condition solver lv) eqn:Hc; try discriminate H.
  - apply loop_condition_bound in Hc. lia.
  - exec_unfold.
    destruct (newton_iteration model solver dt lv st) as [[lv1 [s1 tr1]]|f'] eqn:E1.
    + destruct st as [s tr].
      apply newton_iteration_trace in E1 as (_ & I1 & _).
      eapply IH; [|exact H]. lia.
    + inversion H; subst. eapply newton_iteration_failure, E1.
Qed.

(** [step] up to the loop, and after it, in state-passing form. *)
Lemma newton_iterations_run dt s tr :
  newton_iterations model solver dt (s, tr)
  = let '(norms, s2) :=
      computeResidualNorms model (assemble model true (prepareStep model dt s)) in
    let '(conv, s3) := getConvergence model dt 0 s2 in
    newton_loop model solver (step_fuel solver) dt
      (loop_entry conv (sizeNonLinear model s3) norms)
      (s3, tr ++ [CallPrepareStep; CallAssemble true; CallComputeResidualNorms;
                  CallGetConvergence 0]).
Proof.
  unfold newton_iterations. exec_unfold.
  destruct (computeResidualNorms model _) as [norms s2]. cbn [fst snd].
  destruct (getConvergence model dt 0 s2) as [conv s3].
  rewrite <- !app_assoc. reflexivity.
Qed.

Lemma finish_run dt lv s tr :
  finish model solver dt lv (s, tr)
  = if converged lv
    then Ok ((linearIterations lv,
              counted solver (iteration lv) (linearIterations lv) (model_ solver)),
             (afterStep model dt s, tr ++ [CallAfterStep]))
    else Ok ((-1, solver),
             (s, tr ++ if terminalOutputEnabled model s
                       then [PrintNotConverged (iteration lv)] else [])).
Proof.
  unfold finish. exec_unfold. destruct (converged lv); cbn; [reflexivity|].
  destruct (terminalOutputEnabled model s); cbn; [reflexivity|].
  rewrite app_nil_r. reflexivity.
Qed.

(** [step] as the loop followed by the two ways out. *)
Lemma step_run dt :
  step model solver dt
  = match newton_iterations model solver dt (model_ solver, []) with
    | Fail f => Fail f
    | Ok (lv, (s, tr)) =>
        if converged lv
        then Ok {| returned := linearIterations lv;
                   solver_after :=
                     counted solver (iteration lv) (linearIterations lv)
                       (afterStep model dt s);
                   calls := tr ++ [CallAfterStep];
                   at_exit := lv |}
        else Ok {| returned := -1;
                   solver_after := set_model solver s;
                   calls := tr ++ (if terminalOutputEnabled model s
                                   then [PrintNotConverged (iteration lv)] else []);
                   at_exit := lv |}
    end.
Proof.
  unfold step.
  destruct (newton_iterations model solver dt (model_ solver, [])) as [[lv [s tr]]|f];
    [|reflexivity].
  rewrite finish_run. destruct (converged lv); reflexivity.
Qed.

(** What the calls before and in the loop add up to. *)
Lemma newton_iterations_trace dt lv s tr :
  newton_iterations model solver dt (model_ solver, []) = Ok (lv, (s, tr)) ->
  count is_solve tr = iteration lv
  /\ count is_update tr = iteration lv
  /\ count is_assemble tr = iteration lv + 1
  /\ count is_afterStep tr = 0
  /\ loop_condition solver lv = false
  /\ 0 <= iteration lv <= Z.max 0 (Z.max (maxIter solver) (minIter solver))
  /\ (never_converges model -> converged lv = false)
  /\ ((forall s0, 0 <= linearIterationsLastSolve model s0) -> 0 <= linearIterations lv).
Proof.
  rewrite newton_iterations_run.
  destruct (computeResidualNorms model _) as [norms s2].
  destruct (getConvergence model dt 0 s2) as [conv s3] eqn:Econv.
  intros H. apply newton_loop_trace in H as (G & Hc & Hle & Hub & Hnc & Hlin).
  cbn [loop_entry iteration converged linearIterations] in *.
  destruct G as (evs & -> & G1 & G2 & G3 & G4).
  rewrite !count_app, G1, G2, G3, G4.
  change (count is_solve [CallPrepareStep; CallAssemble true; CallComputeResidualNorms;
                          CallGetConvergence 0]) with 0.
  change (count is_update [CallPrepareStep; CallAssemble true; CallComputeResidualNorms;
                           CallGetConvergence 0]) with 0.
  change (count is_assemble [CallPrepareStep; CallAssemble true; CallComputeResidualNorms;
                             CallGetConvergence 0]) with 1.
  change (count is_afterStep [CallPrepareStep; CallAssemble true; CallComputeResidualNorms;
                              CallGetConvergence 0]) with 0.
  change (count is_solve []) with 0. change (count is_update []) with 0.
  change (count is_assemble []) with 0. change (count is_afterStep []) with 0.
  repeat split; try lia; try assumption.
  intros Hn. apply Hnc; [assumption|].
  specialize (Hn dt 0 s2). rewrite Econv in Hn. exact Hn.
Qed.

(** When every solve reports between 0 and [B] linear iterations, the
    running total grows by at most [B] per round. *)
Lemma newton_loop_linear dt (B : Z) fuel :
  (forall s0, 0 <= linearIterationsLastSolve model s0 <= B) ->
  forall lv s tr lv' s' tr',
  newton_loop model solver fuel dt lv (s, tr) = Ok (lv', (s', tr')) ->
  iteration lv <= iteration lv'
  /\ linearIterations lv <= linearIterations lv'
  /\ linearIterations lv' - linearIterations lv <= B * (iteration lv' - iteration lv).
Proof.
  intros HB.
  induction fuel as [|fuel IH]; intros lv s tr lv' s' tr' H; cbn [newton_loop] in H;
    destruct (loop_condition solver lv) eqn:Hc.
  - discriminate H.
  - inversion H; subst. lia.
  - exec_unfold.
    destruct (newton_iteration model solver dt lv (s, tr)) as [[lv1 [s1 tr1]]|f] eqn:E1;
      [|discriminate H].
    apply newton_iteration_trace in E1 as (_ & I1 & _ & (s0 & L1)).
    apply IH in H as (Hi & Hl & Hb). specialize (HB s0).
    repeat split; [lia | lia | nia].
  - inversion H; subst. lia.
Qed.

Lemma newton_iterations_linear dt (B : Z) lv s tr :
  (forall s0, 0 <= linearIterationsLastSolve model s0 <= B) ->
  newton_iterations model solver dt (model_ solver, []) = Ok (lv, (s, tr)) ->
  0 <= linearIterations lv <= B * iteration lv.
Proof.
  intros HB. rewrite newton_iterations_run.
  destruct (computeResidualNorms model _) as [norms s2].
  destruct (getConvergence model dt 0 s2) as [conv s3].
  intros H. apply (newton_loop_linear _ _ _ HB) in H as (_ & Hl & Hb).
  cbn [loop_entry iteration linearIterations] in *. lia.
Qed.

(** Over a sized model [step] runs to its end. *)
Lemma newton_iterations_defined np n dt :
  sized_model model np n ->
  exists lv s tr, newton_iterations model solver dt (model_ solver, []) = Ok (lv, (s, tr)).
Proof.
  intros Hm. rewrite newton_iterations_run.
  destruct (computeResidualNorms model _) as [norms s2] eqn:Enorms.
  destruct (getConvergence model dt 0 s2) as [conv s3].
  apply (newton_loop_defined np n); [assumption| |].
  - unfold loop_inv, loop_entry, V_Zero. cbn.
    rewrite (sized_unknowns _ _ _ Hm), Nat2Z.id, length_replicate.
    repeat split; try lia. constructor; [|constructor].
    pose proof (sized_norms _ _ _ Hm (assemble model true (prepareStep model dt (model_ solver))))
      as H.
    rewrite Enorms in H. exact H.
  - unfold step_fuel, loop_entry. cbn. lia.
Qed.
End StepFacts.

(** ** [step] *)


(** For every model, the bound on the rounds of the loop is enough: if
    [step] does not come back, it is because of a read or a blend out of
    range. *)
Lemma step_failure {S} (model : NewtonSolver.PhysicalModel S)
    (solver : NewtonSolver.Solver S) (dt : float) (f : failure) :
  NewtonSolver.step model solver dt = Fail f -> f = OutOfBounds.
Proof.
  rewrite step_run, newton_iterations_run.
  destruct (NewtonSolver.computeResidualNorms model _) as [norms s2].
  destruct (NewtonSolver.getConvergence model dt 0 s2) as [conv s3].
  destruct (NewtonSolver.newton_loop _ _ _ _ _ _) as [[lv [s tr]]|f'] eqn:E.
  - destruct (NewtonSolver.converged lv); discriminate.
  - intros H. inversion H; subst.
    eapply newton_loop_failure; [|exact E].
    unfold NewtonSolver.step_fuel, NewtonSolver.loop_entry. cbn. lia.
Qed.

(** C1, as stated, fails for a negative iteration cap: the loop is not
    entered, so [step] fails at iteration 0 after no linear solve and one
    assembly. *)
Lemma step_negative_max_iter :
  let solver := NewtonSolver.fresh_solver (NewtonSolver.with_iterations (-1) (-1)) in
  NewtonSolver.never_converges NewtonSolver.stuck_model
  /\ NewtonSolver.minIter solver <= NewtonSolver.maxIter solver
  /\ ~ exists r,
         NewtonSolver.step NewtonSolver.stuck_model solver 1.0 = Ok r
         /\ NewtonSolver.returned r = -1
         /\ NewtonSolver.iteration (NewtonSolver.at_exit r) = NewtonSolver.maxIter solver
         /\ NewtonSolver.count NewtonSolver.is_solve (NewtonSolver.calls r)
            = NewtonSolver.maxIter solver
         /\ NewtonSolver.count NewtonSolver.is_assemble (NewtonSolver.calls r)
            = NewtonSolver.maxIter solver + 1.
Proof.
  cbv zeta. split; [|split].
  - intros dt it s. reflexivity.
  - cbn. lia.
  - intros (r & Hr & _ & Hit & _). vm_compute in Hr. inversion Hr; subst r.
    vm_compute in Hit. discriminate Hit.
Qed.

(** C1, amended.  With [0 <= max_iter] and [min_iter <= max_iter], over a
    sized model that never reports convergence, [step] returns -1 with
    [iteration == max_iter], after exactly [max_iter] linear solves and
    [max_iter + 1] assemblies. *)
Theorem step_never_converging {S} (model : NewtonSolver.PhysicalModel S)
    (solver : NewtonSolver.Solver S) (dt : float) (np : Z) (n : nat) :
  NewtonSolver.sized_model model np n ->
  NewtonSolver.never_converges model ->
  0 <= NewtonSolver.maxIter solver ->
  NewtonSolver.minIter solver <= NewtonSolver.maxIter solver ->
  exists r,
    NewtonSolver.step model solver dt = Ok r
    /\ NewtonSolver.returned r = -1
    /\ NewtonSolver.iteration (NewtonSolver.at_exit r) = NewtonSolver.maxIter solver
    /\ NewtonSolver.count NewtonSolver.is_solve (NewtonSolver.calls r)
       = NewtonSolver.maxIter solver
    /\ NewtonSolver.count NewtonSolver.is_assemble (NewtonSolver.calls r)
       = NewtonSolver.maxIter solver + 1.
Proof.
  intros Hm Hn Hmax Hmin. rewrite step_run.
  destruct (newton_iterations_defined model solver np n dt Hm) as (lv & s & tr & E).
  rewrite E.
  apply newton_iterations_trace in E as (T1 & _ & T3 & _ & Hc & Hit & Hnc & _).
  specialize (Hnc Hn). rewrite Hnc.
  assert (Hend : NewtonSolver.iteration lv = NewtonSolver.maxIter solver).
  { unfold NewtonSolver.loop_condition in Hc. rewrite Hnc in Hc. cbn in Hc.
    apply orb_false_iff in Hc as [Hc _]. apply Z.ltb_ge in Hc. lia. }
  eexists. split; [reflexivity|]. cbn.
  rewrite !count_app, T1, T3, Hend.
  destruct (NewtonSolver.terminalOutputEnabled model s); repeat split;
    unfold NewtonSolver.count; cbn; lia.
Qed.

(** The theorem at the never-converging toy model and the default
    parameters (15 iterations at most, 1 at least). *)
Lemma step_never_converging_witness :
  exists r,
    NewtonSolver.step NewtonSolver.stuck_model
      (NewtonSolver.fresh_solver NewtonSolver.reset) 1.0 = Ok r
    /\ NewtonSolver.returned r = -1
    /\ NewtonSolver.iteration (NewtonSolver.at_exit r) = 15
    /\ NewtonSolver.count NewtonSolver.is_solve (NewtonSolver.calls r) = 15
    /\ NewtonSolver.count NewtonSolver.is_assemble (NewtonSolver.calls r) = 15 + 1.
Proof.
  apply (step_never_converging NewtonSolver.stuck_model
           (NewtonSolver.fresh_solver NewtonSolver.reset) 1.0 1 1%nat).
  - constructor; intros s; cbn; lia.
  - intros dt it s. reflexivity.
  - cbn. lia.
  - cbn. lia.
Defined.





(** C10, as stated, fails: the value -1 does not tell the two exits
    apart.  Over the model that is converged throughout and whose solves
    report -1 linear iterations, [step] makes its one forced iteration,
    updates the counters, runs [afterStep] and returns the total -1. *)
Lemma step_sentinel_from_converged_exit :
  let solver := NewtonSolver.fresh_solver NewtonSolver.reset in
  ~ (forall r,
       NewtonSolver.step NewtonSolver.miscounting_model solver 1.0 = Ok r ->
       NewtonSolver.returned r = -1 ->
       NewtonSolver.newtonIterations_ (NewtonSolver.solver_after r)
       = NewtonSolver.newtonIterations_ solver
       /\ NewtonSolver.linearIterations_ (NewtonSolver.solver_after r)
          = NewtonSolver.linearIterations_ solver
       /\ NewtonSolver.newtonIterationsLast_ (NewtonSolver.solver_after r)
          = NewtonSolver.newtonIterationsLast_ solver
       /\ NewtonSolver.linearIterationsLast_ (NewtonSolver.solver_after r)
          = NewtonSolver.linearIterationsLast_ solver
       /\ NewtonSolver.count NewtonSolver.is_afterStep (NewtonSolver.calls r) = 0).
Proof.
  cbv zeta. intros H.
  eassert (Hr : NewtonSolver.step NewtonSolver.miscounting_model
                  (NewtonSolver.fresh_solver NewtonSolver.reset) 1.0 = Ok _)
    by (vm_compute; reflexivity).
  destruct (H _ Hr ltac:(reflexivity)) as (Hn & _). vm_compute in Hn. discriminate Hn.
Qed.

(** C10, amended.  When [step] leaves the loop unconverged it returns
    -1, the four counters keep their values and [afterStep] has not been
    called; the counters change and [afterStep] runs (once, as the last
    call) on the converged path only, which returns the total of the
    linear iterations.  When every solve reports between 0 and [B] linear
    iterations and [B] times the largest number of rounds is below 2^31,
    that total is an [int] that is not negative, so the value -1 comes
    from the unconverged path only: the counters are as before the call
    and [afterStep] has not run. *)
Theorem step_failure_leaves_counters {S} (model : NewtonSolver.PhysicalModel S)
    (solver : NewtonSolver.Solver S) (dt : float) (r : NewtonSolver.StepResult) :
  NewtonSolver.step model solver dt = Ok r ->
  (NewtonSolver.converged (NewtonSolver.at_exit r) = false ->
     NewtonSolver.returned r = -1
     /\ NewtonSolver.newtonIterations_ (NewtonSolver.solver_after r)
        = NewtonSolver.newtonIterations_ solver
     /\ NewtonSolver.linearIterations_ (NewtonSolver.solver_after r)
        = NewtonSolver.linearIterations_ solver
     /\ NewtonSolver.newtonIterationsLast_ (NewtonSolver.solver_after r)
        = NewtonSolver.newtonIterationsLast_ solver
     /\ NewtonSolver.linearIterationsLast_ (NewtonSolver.solver_after r)
        = NewtonSolver.linearIterationsLast_ solver
     /\ NewtonSolver.count NewtonSolver.is_afterStep (NewtonSolver.calls r) = 0)
  /\ (NewtonSolver.converged (NewtonSolver.at_exit r) = true ->
        NewtonSolver.returned r = NewtonSolver.linearIterations (NewtonSolver.at_exit r)
        /\ NewtonSolver.newtonIterations_ (NewtonSolver.solver_after r)
           = NewtonSolver.uint (NewtonSolver.newtonIterations_ solver
                                + NewtonSolver.iteration (NewtonSolver.at_exit r))
        /\ NewtonSolver.linearIterations_ (NewtonSolver.solver_after r)
           = NewtonSolver.uint (NewtonSolver.linearIterations_ solver
                                + NewtonSolver.linearIterations (NewtonSolver.at_exit r))
        /\ NewtonSolver.count NewtonSolver.is_afterStep (NewtonSolver.calls r) = 1
        /\ last (NewtonSolver.calls r) = Some NewtonSolver.CallAfterStep)
  /\ (forall B,
        (forall s, 0 <= NewtonSolver.linearIterationsLastSolve model s <= B) ->
        B * Z.max 0 (Z.max (NewtonSolver.maxIter solver) (NewtonSolver.minIter solver))
        < 2 ^ 31 ->
        0 <= NewtonSolver.linearIterations (NewtonSolver.at_exit r) < 2 ^ 31
        /\ (NewtonSolver.returned r = -1 ->
              NewtonSolver.converged (NewtonSolver.at_exit r) = false
              /\ NewtonSolver.newtonIterations_ (NewtonSolver.solver_after r)
                 = NewtonSolver.newtonIterations_ solver
              /\ NewtonSolver.linearIterations_ (NewtonSolver.solver_after r)
                 = NewtonSolver.linearIterations_ solver
              /\ NewtonSolver.newtonIterationsLast_ (NewtonSolver.solver_after r)
                 = NewtonSolver.newtonIterationsLast_ solver
              /\ NewtonSolver.linearIterationsLast_ (NewtonSolver.solver_after r)
                 = NewtonSolver.linearIterationsLast_ solver
              /\ NewtonSolver.count NewtonSolver.is_afterStep (NewtonSolver.calls r) = 0)).
Proof.
  rewrite step_run.
  destruct (NewtonSolver.newton_iterations model solver dt _) as [[lv [s tr]]|f] eqn:E;
    [|discriminate].
  intros H.
  assert (Hrange : forall B,
            (forall s0, 0 <= NewtonSolver.linearIterationsLastSolve model s0 <= B) ->
            B * Z.max 0 (Z.max (NewtonSolver.maxIter solver) (NewtonSolver.minIter solver))
            < 2 ^ 31 ->
            0 <= NewtonSolver.linearIterations lv < 2 ^ 31).
  { intros B HB Hcap.
    pose proof (newton_iterations_linear model solver dt B lv s tr HB E) as Hlin.
    apply newton_iterations_trace in E as (_ & _ & _ & _ & _ & Hit & _ & _).
    pose proof (HB (NewtonSolver.model_ solver)) as HB0. nia. }
  apply newton_iterations_trace in E as (_ & _ & _ & T4 & _ & _ & _ & _).
  destruct (NewtonSolver.converged lv) eqn:Hconv; inversion H; subst r; clear H;
    cbn [NewtonSolver.at_exit NewtonSolver.returned NewtonSolver.solver_after
         NewtonSolver.calls]; rewrite Hconv.
  - split; [discriminate|]. split.
    + intros _. rewrite count_app, T4, last_snoc. repeat split; reflexivity.
    + intros B HB Hcap. split; [exact (Hrange B HB Hcap)|].
      intros Hret. pose proof (Hrange B HB Hcap). lia.
  - assert (Hexit :
      NewtonSolver.newtonIterations_ (NewtonSolver.set_model solver s)
      = NewtonSolver.newtonIterations_ solver
      /\ NewtonSolver.linearIterations_ (NewtonSolver.set_model solver s)
         = NewtonSolver.linearIterations_ solver
      /\ NewtonSolver.newtonIterationsLast_ (NewtonSolver.set_model solver s)
         = NewtonSolver.newtonIterationsLast_ solver
      /\ NewtonSolver.linearIterationsLast_ (NewtonSolver.set_model solver s)
         = NewtonSolver.linearIterationsLast_ solver
      /\ NewtonSolver.count NewtonSolver.is_afterStep
           (tr ++ (if NewtonSolver.terminalOutputEnabled model s
                   then [NewtonSolver.PrintNotConverged (NewtonSolver.iteration lv)]
                   else [])) = 0).
    { rewrite count_app, T4.
      destruct (NewtonSolver.terminalOutputEnabled model s); repeat split; reflexivity. }
    split; [intros _; split; [reflexivity | exact Hexit]|].
    split; [discriminate|].
    intros B HB Hcap. split; [exact (Hrange B HB Hcap)|].
    intros _. split; [reflexivity | exact Hexit].
Qed.

(** The theorem at the never-converging toy model, whose solves report 3
    linear iterations each, 45 at most over the 15 rounds. *)
Lemma step_failure_leaves_counters_witness :
  exists r,
    NewtonSolver.step NewtonSolver.stuck_model
      (NewtonSolver.fresh_solver NewtonSolver.reset) 1.0 = Ok r
    /\ NewtonSolver.returned r = -1
    /\ NewtonSolver.newtonIterations_ (NewtonSolver.solver_after r) = 0
    /\ NewtonSolver.linearIterations_ (NewtonSolver.solver_after r) = 0
    /\ NewtonSolver.count NewtonSolver.is_afterStep (NewtonSolver.calls r) = 0.
Proof.
  eexists. split; [vm_compute; reflexivity|].
  match goal with
  | |- context [NewtonSolver.returned ?r] =>
      destruct (step_failure_leaves_counters NewtonSolver.stuck_model
                  (NewtonSolver.fresh_solver NewtonSolver.reset) 1.0 r
                  ltac:(vm_compute; reflexivity))
        as (_ & _ & Hbounded)
  end.
  destruct (Hbounded 3 ltac:(intros s; cbn; lia) ltac:(vm_compute; reflexivity))
    as (_ & Hsentinel).
  destruct (Hsentinel ltac:(reflexivity)) as (_ & H1 & H2 & _ & _ & H5).
  repeat split; assumption.
Defined.

(** ** Outcomes *)

Lemma obind_Ok {A B} (o : outcome A) (k : A -> outcome B) (b : B) :
  obind o k = Ok b -> exists a, o = Ok a /\ k a = Ok b.
Proof. destruct o as [a|f]; cbn; [eauto | discriminate]. Qed.

Lemma mbind_Ok {A B} (a : A) (k : A -> outcome B) : mbind k (Ok a) = k a.
Proof. reflexivity. Qed.

Lemma assert_Ok (c : bool) (u : unit) : assert_ c = Ok u -> c = true.
Proof. destruct c; [reflexivity | discriminate]. Qed.

(** Splits a run of binds that ended in [Ok] into its steps. *)
Ltac invert_binds H :=
  repeat match type of H with
    | mbind _ _ = Ok _ =>
        let a := fresh "a" in
        let E := fresh "E" in
        apply obind_Ok in H as (a & E & H)
    | obind _ _ = Ok _ =>
        let a := fresh "a" in
        let E := fresh "E" in
        apply obind_Ok in H as (a & E & H)
    end.

(** ** Blocks without coefficients *)

Section ZeroBlocks.
Import AutoDiff.

Lemma diag_mul_empty d m : coeffs m = ∅ -> coeffs (diag_mul d m) = ∅.
Proof. intros H. cbn. rewrite H. apply map_imap_empty. Qed.

Lemma combine_empty f a b : coeffs a = ∅ -> coeffs b = ∅ -> coeffs (combine f a b) = ∅.
Proof. intros Ha Hb. cbn. rewrite Ha, Hb. apply merge_empty. Qed.

Lemma mmul_empty a b : coeffs b = ∅ -> coeffs (mmul a b) = ∅.
Proof.
  intros Hb. cbn. rewrite Hb, map_to_list_empty. cbn.
  induction (map_to_list (coeffs a)) as [|x l IH]; [reflexivity | exact IH].
Qed.

Lemma combine_zeroM f r c b : coeffs b = ∅ -> combine f (zeroM r c) b = zeroM r c.
Proof. intros Hb. unfold combine, zeroM. cbn. rewrite Hb, merge_empty. reflexivity. Qed.

Lemma same_shape_blocks x y :
  same_shape x y = true -> length (jac x) = length (jac y).
Proof.
  unfold same_shape. rewrite !andb_true_iff, bool_decide_eq_true.
  intros [[[_ H] _] _]. unfold blockPattern in H.
  apply (f_equal length) in H. rewrite !length_map in H. exact H.
Qed.

Lemma zip_blocks_wellfree (g : M -> M -> M) v x y :
  (forall a b, coeffs a = ∅ -> coeffs b = ∅ -> coeffs (g a b) = ∅) ->
  wellfree x -> wellfree y ->
  wellfree {| val := v; jac := zip_with g (jac x) (jac y) |}.
Proof.
  intros Hg (mx & Ex & Hx) (my & Ey & Hy).
  exists (g mx my). cbn. rewrite lookup_zip_with, Ex, Ey. cbn. auto.
Qed.

Ltac binary_wellfree Hg :=
  let H := fresh "H" in
  intros H ? ?; unfold ADB_add, ADB_sub, ADB_mul, ADB_div in H;
  invert_binds H; inversion H; subst;
  apply zip_blocks_wellfree; [exact Hg | assumption | assumption].

Lemma ADB_add_wellfree x y z :
  ADB_add x y = Ok z -> wellfree x -> wellfree y -> wellfree z.
Proof. binary_wellfree (combine_empty PrimFloat.add). Qed.

Lemma ADB_sub_wellfree x y z :
  ADB_sub x y = Ok z -> wellfree x -> wellfree y -> wellfree z.
Proof. binary_wellfree (combine_empty PrimFloat.sub). Qed.

Lemma ADB_mul_wellfree x y z :
  ADB_mul x y = Ok z -> wellfree x -> wellfree y -> wellfree z.
Proof.
  intros H Hx Hy. unfold ADB_mul in H. invert_binds H. inversion H; subst.
  apply zip_blocks_wellfree; [|assumption|assumption].
  intros ja jb Ha Hb. apply combine_empty; apply diag_mul_empty; assumption.
Qed.

Lemma ADB_div_wellfree x y z :
  ADB_div x y = Ok z -> wellfree x -> wellfree y -> wellfree z.
Proof.
  intros H Hx Hy. unfold ADB_div in H. invert_binds H. inversion H; subst.
  apply zip_blocks_wellfree; [|assumption|assumption].
  intros ja jb Ha Hb. apply diag_mul_empty, combine_empty; apply diag_mul_empty; assumption.
Qed.

Lemma constant_wellfree v y : wellfree y -> wellfree (constant v (blockPattern y)).
Proof.
  intros (m & E & _). exists (zeroM (length v) (cols m)). split; [|reflexivity].
  unfold constant, blockPattern. cbn. rewrite !list_lookup_fmap, E. reflexivity.
Qed.

Lemma V_add_wellfree v y z : V_add v y = Ok z -> wellfree y -> wellfree z.
Proof. intros H Hy. eapply ADB_add_wellfree; eauto using constant_wellfree. Qed.

Lemma V_sub_wellfree v y z : V_sub v y = Ok z -> wellfree y -> wellfree z.
Proof. intros H Hy. eapply ADB_sub_wellfree; eauto using constant_wellfree. Qed.

Lemma V_mul_wellfree v y z : V_mul v y = Ok z -> wellfree y -> wellfree z.
Proof. intros H Hy. eapply ADB_mul_wellfree; eauto using constant_wellfree. Qed.

Lemma V_div_wellfree v y z : V_div v y = Ok z -> wellfree y -> wellfree z.
Proof. intros H Hy. eapply ADB_div_wellfree; eauto using constant_wellfree. Qed.

Lemma M_mul_wellfree m x z : M_mul m x = Ok z -> wellfree x -> wellfree z.
Proof.
  intros H (mx & Ex & Hx). unfold M_mul in H. invert_binds H. inversion H; subst.
  exists (mmul m mx). cbn. rewrite list_lookup_fmap, Ex. split; [reflexivity|].
  apply mmul_empty, Hx.
Qed.

Lemma function_jac v j x : function v j = Ok x -> val x = v /\ jac x = j.
Proof.
  intros H. unfold function in H. invert_binds H. inversion H; subst. auto.
Qed.
End ZeroBlocks.

(** ** The property adapter *)

Section Adapter.
Import AutoDiff Impes.

Lemma mapM_Ok_length {A B} (f : A -> outcome B) (l : list A) (k : list B) :
  mapM f l = Ok k -> length k = length l.
Proof.
  revert k. induction l as [|x l IH]; intros k H; cbn in H.
  - inversion H. reflexivity.
  - invert_binds H. inversion H; subst. cbn. f_equal. apply IH. assumption.
Qed.

Lemma block_col_length a c n v : block_col a c n = Ok v -> length v = Z.to_nat n.
Proof.
  unfold block_col. destruct (_ && _); [|discriminate].
  intros H. apply mapM_Ok_length in H. rewrite H, length_seqZ. reflexivity.
Qed.

Lemma pressure_blocks_inv v dv p j :
  pressure_blocks v dv p = Ok j ->
  exists p1, j = [spdiag dv; zeroM (length v) p1] /\ blockPattern p = [length dv; p1].
Proof.
  intros H. unfold pressure_blocks in H. invert_binds H. inversion H; subst; clear H.
  apply assert_Ok, Nat.eqb_eq in E. apply assert_Ok, Nat.eqb_eq in E1. cbn in E1.
  exists a2. split; [reflexivity|].
  unfold numBlocks in E. unfold blockPattern in *.
  destruct (jac p) as [|m0 [|m1 [|m2 l]]]; try discriminate E.
  cbn in *. congruence.
Qed.

Lemma pressure_blocks_wellfree v dv p j x :
  pressure_blocks v dv p = Ok j -> function v j = Ok x -> wellfree x.
Proof.
  intros Hj Hx. apply pressure_blocks_inv in Hj as (p1 & -> & _).
  apply function_jac in Hx as [_ Hx]. unfold wellfree. rewrite Hx.
  exists (zeroM (length v) p1). split; reflexivity.
Qed.

Lemma fvf_wellfree d phase p x : fvf d phase p = Ok x -> wellfree x.
Proof.
  intros H. unfold fvf in H. invert_binds H.
  eapply V_div_wellfree; [eassumption|]. eapply pressure_blocks_wellfree; eassumption.
Qed.

Lemma phaseViscosity_wellfree d phase p x : phaseViscosity d phase p = Ok x -> wellfree x.
Proof.
  intros H. unfold phaseViscosity in H. invert_binds H.
  eapply pressure_blocks_wellfree; eassumption.
Qed.
End Adapter.

(** ** The assembler *)

Section Assembler.
Import AutoDiff Impes.

Lemma ADB_sub_zero_block x y z r c :
  ADB_sub x y = Ok z -> jac x !! 1%nat = Some (zeroM r c) -> wellfree y ->
  jac z !! 1%nat = Some (zeroM r c).
Proof.
  intros H Hx (my & Ey & Hy). unfold ADB_sub in H. invert_binds H.
  inversion H; subst; clear H. cbn. rewrite lookup_zip_with, Hx, Ey. cbn.
  f_equal. apply combine_zeroM, Hy.
Qed.

Lemma ADB_sub_numBlocks x y z : ADB_sub x y = Ok z -> numBlocks z = numBlocks x.
Proof.
  intros H. unfold ADB_sub in H. invert_binds H. inversion H; subst; clear H.
  apply assert_Ok, same_shape_blocks in E. unfold numBlocks. cbn.
  rewrite length_zip_with. lia.
Qed.

Create HintDb wellfree.
#[local] Hint Resolve fvf_wellfree phaseViscosity_wellfree ADB_add_wellfree
  ADB_sub_wellfree ADB_mul_wellfree ADB_div_wellfree V_add_wellfree V_sub_wellfree
  V_mul_wellfree V_div_wellfree M_mul_wellfree : wellfree.

(** A round of the loop over the phases keeps the well block of the
    residual empty. *)
Lemma assemble_phase_well_block o d pv delta_t z0all qall upwind p nkgradp r phase r' n c :
  assemble_phase o d pv delta_t z0all qall upwind p nkgradp r phase = Ok r' ->
  wellfree nkgradp ->
  jac r !! 1%nat = Some (zeroM n c) ->
  jac r' !! 1%nat = Some (zeroM n c) /\ numBlocks r' = numBlocks r.
Proof.
  intros H Hk Hr. unfold assemble_phase, select in H. invert_binds H.
  split; [eapply ADB_sub_zero_block | eapply ADB_sub_numBlocks]; eauto 20 with wellfree.
Qed.

Lemma assemble_phases_well_block o d pv delta_t z0all qall upwind p nkgradp n c phases :
  forall r r',
  assemble_phases o d pv delta_t z0all qall upwind p nkgradp r phases = Ok r' ->
  wellfree nkgradp ->
  jac r !! 1%nat = Some (zeroM n c) ->
  jac r' !! 1%nat = Some (zeroM n c) /\ numBlocks r' = numBlocks r.
Proof.
  induction phases as [|phase phases IH]; intros r r' H Hk Hr; cbn [assemble_phases] in H.
  - inversion H; subst. auto.
  - invert_binds H.
    eapply assemble_phase_well_block in E as [E1 E2]; [|eassumption..].
    destruct (IH _ _ H Hk E1) as [F1 F2]. split; [assumption | congruence].
Qed.

Lemma V_Map_Ok data n v :
  V_Map data n = Ok v ->
  v = take (Z.to_nat n) data /\ 0 <= n <= Z.of_nat (length data).
Proof.
  unfold V_Map. destruct (_ && _) eqn:E; [|discriminate].
  apply andb_true_iff in E as [E1 E2]. apply Z.leb_le in E1, E2.
  intros H. inversion H. auto.
Qed.

(** What an assembly that completes has done to the object. *)
Lemma assemble_Ok dt state well_state o o' :
  assemble dt state well_state o = Ok o' ->
  exists d r,
    computePressQuant state (pdepfdata_ o) = Ok d
    /\ o' = set_cell_residual (set_pdepfdata o d) r
    /\ numBlocks r = 2%nat
    /\ jac r !! 1%nat
       = Some (zeroM (length (geo_poreVolume o)) (Z.to_nat (number_of_wells (wells_ o))))
    /\ 0 <= grid_number_of_cells o <= Z.of_nat (length (pressure state)).
Proof.
  intros H. unfold assemble in H. cbv zeta in H. invert_binds H.
  inversion H; subst; clear H.
  cbn [set_pdepfdata geo_poreVolume grid_number_of_cells wells_ ops_ upwind_] in *.
  repeat match goal with
    | H : V_Map _ _ = Ok _ |- _ => apply V_Map_Ok in H as [-> ?]
    end.
  repeat match goal with
    | H : of_option (variables _ !! _) = Ok _ |- _ => cbn in H; inversion H; subst; clear H
    end.
  match goal with
  | Hd : computePressQuant _ _ = Ok ?d, Hr : assemble_phases _ _ _ _ _ _ _ _ _ _ _ = Ok ?r,
    Hg : M_mul (ngrad _) _ = Ok ?g, Hk : V_mul _ ?g = Ok _ |- _ =>
      exists d, r; split; [exact Hd|]; split; [reflexivity|];
      eapply assemble_phases_well_block in Hr as [F1 F2];
        [ | eapply V_mul_wellfree; [exact Hk|]; eapply M_mul_wellfree; [exact Hg|];
            eexists; split; reflexivity
          | cbn; rewrite length_take; reflexivity ]
  end.
  split; [|split]; [| |assumption].
  - rewrite F2. reflexivity.
  - rewrite F1. do 2 f_equal. lia.
Qed.
End Assembler.

(** ** [ImpesTPFAAD::assemble] and [ImpesTPFAAD::solve] *)

(** The constructor sets the well residual to the null quantity. *)
Lemma ImpesTPFAAD_new_well_residual nc fluid pv trans wells linsolver ops upwind junk :
  Impes.well_residual_ (Impes.ImpesTPFAAD_new nc fluid pv trans wells linsolver ops upwind junk)
  = AutoDiff.null.
Proof. reflexivity. Qed.

(** C8.  After every assembly the block of the cell residual against the
    well bottom-hole pressures is the empty matrix, and the well residual
    is still the null quantity the constructor set. *)
Theorem assemble_leaves_wells_out (dt : float) (state : Impes.BlackoilState)
    (well_state : Impes.WellState) (o o' : Impes.ImpesTPFAAD) :
  Impes.well_residual_ o = AutoDiff.null ->
  Impes.assemble dt state well_state o = Ok o' ->
  AutoDiff.jac (Impes.cell_residual_ o') !! 1%nat
  = Some (AutoDiff.zeroM (length (Impes.geo_poreVolume o))
            (Z.to_nat (Impes.number_of_wells (Impes.wells_ o))))
  /\ Impes.well_residual_ o' = AutoDiff.null.
Proof.
  intros Hnull H. apply assemble_Ok in H as (d & r & _ & -> & _ & Hr & _).
  split; [exact Hr | exact Hnull].
Qed.

(** The theorem at the single cell with its single well. *)
Lemma assemble_leaves_wells_out_witness :
  exists o',
    Impes.assemble 1.0 Impes.cell_state Impes.cell_well_state (Impes.cell_impes true) = Ok o'
    /\ AutoDiff.jac (Impes.cell_residual_ o') !! 1%nat = Some (AutoDiff.zeroM 1 1)
    /\ Impes.well_residual_ o' = AutoDiff.null.
Proof.
  eexists. split; [vm_compute; reflexivity|].
  match goal with
  | |- context [Impes.cell_residual_ ?o'] =>
      apply (assemble_leaves_wells_out 1.0 Impes.cell_state Impes.cell_well_state
               (Impes.cell_impes true) o')
  end.
  - reflexivity.
  - vm_compute. reflexivity.
Defined.

Lemma updated_pressure_lookup nc pressure dp i p_old :
  0 <= nc <= Z.of_nat (length pressure) ->
  (i < Z.to_nat nc)%nat ->
  pressure !! i = Some p_old ->
  Impes.updated_pressure nc pressure dp !! i = Some (p_old - dp i)%float.
Proof.
  intros Hnc Hi Hp. unfold Impes.updated_pressure.
  rewrite lookup_app_l.
  2:{ rewrite length_zip_with, length_take, length_map, length_seq. lia. }
  rewrite lookup_zip_with, lookup_take_lt, Hp by lia. cbn.
  rewrite list_lookup_fmap, lookup_seq_lt by lia. reflexivity.
Qed.

(** C4.  Once the saturation refresh and the assembly have gone through,
    [solve] calls the linear solver once on the pressure block and the
    residual value.  If the solver reports convergence, [solve] returns
    with every cell pressure [p_old - dp]; if not, it throws, and the
    state is as it was. *)
Theorem solve_spec (dt : float) (state : Impes.BlackoilState)
    (well_state : Impes.WellState) (o o1 : Impes.ImpesTPFAAD)
    (d : Impes.PressureDependentFluidData) :
  Impes.computeSatQuant state (Impes.pdepfdata_ o) = Ok d ->
  Impes.assemble dt state well_state (Impes.set_pdepfdata o d) = Ok o1 ->
  exists matr,
    AutoDiff.jac (Impes.cell_residual_ o1) !! 0%nat = Some matr
    /\ let nc := Impes.grid_number_of_cells o in
       let answer :=
         Impes.linsolver_ o nc matr (AutoDiff.val (Impes.cell_residual_ o1)) in
       (Impes.converged (fst answer) = true ->
          Impes.solve dt state well_state o
          = Ok {| Impes.object_after := o1;
                  Impes.state_after :=
                    Impes.set_pressure state
                      (Impes.updated_pressure nc (Impes.pressure state) (snd answer));
                  Impes.linear_solves := 1;
                  Impes.completion := Impes.Returned |}
          /\ forall i p_old,
               (i < Z.to_nat nc)%nat -> Impes.pressure state !! i = Some p_old ->
               Impes.updated_pressure nc (Impes.pressure state) (snd answer) !! i
               = Some (p_old - snd answer i)%float)
       /\ (Impes.converged (fst answer) = false ->
             Impes.solve dt state well_state o
             = Ok {| Impes.object_after := o1;
                     Impes.state_after := state;
                     Impes.linear_solves := 1;
                     Impes.completion :=
                       Impes.Threw "ImpesTPFAAD::solve(): Linear solver convergence failure." |}).
Proof.
  intros Hsat Hasm.
  destruct (assemble_Ok _ _ _ _ _ Hasm) as (d' & r & _ & Ho1 & Hnb & _ & Hnc).
  cbn [Impes.set_pdepfdata Impes.grid_number_of_cells] in Hnc.
  assert (Hmatr : exists matr, AutoDiff.jac r !! 0%nat = Some matr).
  { unfold AutoDiff.numBlocks in Hnb. destruct (AutoDiff.jac r); [discriminate|eauto]. }
  destruct Hmatr as [matr Hmatr]. exists matr.
  assert (Hres : Impes.cell_residual_ o1 = r) by (subst o1; reflexivity).
  assert (Hls : Impes.linsolver_ o1 = Impes.linsolver_ o) by (subst o1; reflexivity).
  assert (Hgc : Impes.grid_number_of_cells o1 = Impes.grid_number_of_cells o)
    by (subst o1; reflexivity).
  split; [rewrite Hres; exact Hmatr|]. cbv zeta.
  assert (Hsolve : forall k : Impes.ImpesTPFAAD -> outcome Impes.Solved,
            (o' ← Impes.assemble dt state well_state (Impes.set_pdepfdata o d); k o') = k o1).
  { intros k. rewrite Hasm. reflexivity. }
  unfold Impes.solve. rewrite Hsat.
  change (mbind ?k (Ok d)) with (k d). cbv beta zeta.
  rewrite Hsolve, Hgc, Hls, Hres, Hmatr.
  change (mbind ?k (of_option (Some matr))) with (k matr). cbv beta.
  unfold Impes.V_Map.
  replace ((0 <=? Impes.grid_number_of_cells o)
           && (Impes.grid_number_of_cells o <=? Z.of_nat (length (Impes.pressure state))))
    with true by (symmetry; apply andb_true_iff; split; apply Z.leb_le; lia).
  change (mbind ?k (Ok ?x)) with (k x). cbv beta.
  destruct (Impes.linsolver_ o (Impes.grid_number_of_cells o) matr (AutoDiff.val r))
    as [rep solution].
  cbn [fst snd]. split.
  - intros Hc. rewrite Hc. cbn [negb]. split.
    + set (n := Z.to_nat (Impes.grid_number_of_cells o)).
      assert (Hn : (n <= length (Impes.pressure state))%nat) by lia.
      assert (Hlen : length (take n (Impes.pressure state)) = n)
        by (rewrite length_take; lia).
      unfold V_zip. rewrite Hlen, length_map, length_seq, Nat.eqb_refl.
      change (mbind ?k (Ok ?x)) with (k x). cbv beta.
      unfold Impes.copy_into.
      rewrite length_zip_with, Hlen, length_map, length_seq, Nat.min_id.
      apply Nat.leb_le in Hn. rewrite Hn.
      reflexivity.
    + intros i p_old Hi Hp. apply updated_pressure_lookup; assumption.
  - intros Hc. rewrite Hc. reflexivity.
Qed.

(** The theorem at the single cell: a converging and a failing backend. *)
Lemma solve_spec_witness :
  (exists r,
     Impes.solve 1.0 Impes.cell_state Impes.cell_well_state (Impes.cell_impes true) = Ok r
     /\ Impes.completion r = Impes.Returned
     /\ Impes.pressure (Impes.state_after r) = [9.5%float])
  /\ (exists r,
        Impes.solve 1.0 Impes.cell_state Impes.cell_well_state (Impes.cell_impes false) = Ok r
        /\ Impes.completion r
           = Impes.Threw "ImpesTPFAAD::solve(): Linear solver convergence failure."
        /\ Impes.state_after r = Impes.cell_state).
Proof.
  split.
  - eassert (Hd : Impes.computeSatQuant Impes.cell_state
                    (Impes.pdepfdata_ (Impes.cell_impes true)) = Ok _)
      by (vm_compute; reflexivity).
    match type of Hd with
    | _ = Ok ?d =>
        eassert (Ho : Impes.assemble 1.0 Impes.cell_state Impes.cell_well_state
                        (Impes.set_pdepfdata (Impes.cell_impes true) d) = Ok _)
          by (vm_compute; reflexivity)
    end.
    destruct (solve_spec _ _ _ _ _ _ Hd Ho) as (matr & _ & Hconv & _).
    destruct (Hconv ltac:(reflexivity)) as [Hsolve _].
    eexists. split; [exact Hsolve|]. split; reflexivity.
  - eassert (Hd : Impes.computeSatQuant Impes.cell_state
                    (Impes.pdepfdata_ (Impes.cell_impes false)) = Ok _)
      by (vm_compute; reflexivity).
    match type of Hd with
    | _ = Ok ?d =>
        eassert (Ho : Impes.assemble 1.0 Impes.cell_state Impes.cell_well_state
                        (Impes.set_pdepfdata (Impes.cell_impes false) d) = Ok _)
          by (vm_compute; reflexivity)
    end.
    destruct (solve_spec _ _ _ _ _ _ Hd Ho) as (matr & _ & _ & Hthrow).
    specialize (Hthrow ltac:(reflexivity)).
    eexists. split; [exact Hthrow|]. split; reflexivity.
Defined.

(** [solve] never touches the well residual either. *)
Lemma solve_well_residual dt state well_state o r :
  Impes.solve dt state well_state o = Ok r ->
  Impes.well_residual_ (Impes.object_after r) = Impes.well_residual_ o.
Proof.
  intros H. unfold Impes.solve in H. cbv zeta in H. invert_binds H.
  match goal with
  | Ha : Impes.assemble _ _ _ _ = Ok ?o1 |- _ =>
      apply assemble_Ok in Ha as (d' & r' & _ & -> & _)
  end.
  destruct (Impes.linsolver_ _ _ _ _) as [rep solution].
  destruct (negb (Impes.converged rep)).
  - inversion H; subst. reflexivity.
  - invert_binds H. inversion H; subst. reflexivity.
Qed.

(** ** The Jacobian of the formation volume factor *)

Section Fvf.
Import AutoDiff Impes.

Lemma diagonal_lookup (d : V) : forall (g : nat -> float -> float) k i j,
  (list_to_map (imap (fun n x => ((k + n, k + n)%nat, g n x)) d) : gmap (nat * nat) float)
    !! (i, j)
  = if decide (i = j /\ (k <= i)%nat) then g (i - k)%nat <$> d !! (i - k)%nat else None.
Proof.
  induction d as [|x d IH]; intros g k i j.
  - cbn. rewrite lookup_empty. destruct (decide _); reflexivity.
  - rewrite imap_cons, list_to_map_cons.
    destruct (decide ((k + 0, k + 0)%nat = (i, j))) as [E|N].
    + rewrite <- E, lookup_insert_eq. injection E as <- <-.
      rewrite decide_True by lia. replace (k + 0 - k)%nat with 0%nat by lia.
      reflexivity.
    + rewrite lookup_insert_ne by exact N.
      erewrite imap_ext; [rewrite (IH (fun n => g (Datatypes.S n)) (Datatypes.S k) i j)|].
      2:{ intros n y _. cbn. replace (k + Datatypes.S n)%nat with (Datatypes.S k + n)%nat by lia.
          reflexivity. }
      destruct (decide (i = j /\ (Datatypes.S k <= i)%nat)) as [[-> Hk]|Hn].
      * rewrite decide_True by lia.
        replace (j - k)%nat with (Datatypes.S (j - Datatypes.S k)) by lia. reflexivity.
      * destruct (decide (i = j /\ (k <= i)%nat)) as [[-> Hk]|]; [|reflexivity].
        exfalso. assert (j = k) by lia. subst. apply N. f_equal; lia.
Qed.

Lemma spdiag_lookup d i j :
  coeffs (spdiag d) !! (i, j) = if decide (i = j) then d !! i else None.
Proof.
  unfold spdiag. cbn.
  pose proof (diagonal_lookup d (fun _ x => x) 0 i j) as H. cbn in H. rewrite H.
  rewrite Nat.sub_0_r.
  destruct (decide (i = j)); [rewrite decide_True by lia | rewrite decide_False by lia];
    [|reflexivity].
  destruct (d !! i); reflexivity.
Qed.

Lemma zip_with_replicate {A B C} (f : A -> B -> C) (c : A) (l : list B) :
  zip_with f (replicate (length l) c) l = map (f c) l.
Proof. induction l as [|x l IH]; cbn; [reflexivity | f_equal; exact IH]. Qed.

Lemma quotient_zero_block (D3 D2 D1 : V) r c r' :
  diag_mul D3 (msub (diag_mul D2 (zeroM r c)) (diag_mul D1 (zeroM r' c))) = zeroM r c.
Proof.
  unfold diag_mul, msub, combine, zeroM. cbn.
  rewrite !map_imap_empty, merge_empty, map_imap_empty. reflexivity.
Qed.

(** The coefficients of the pressure block of [1 / function(A, jac)]. *)
Lemma quotient_diagonal (A dA one : V) r c i j :
  coeffs (diag_mul (map (fun f => (1 / (f * f))%float) A)
            (msub (diag_mul A (zeroM r c)) (diag_mul one (spdiag dA)))) !! (i, j)
  = if decide (i = j)
    then da ← dA !! i;
         Some (V_at (map (fun f => (1 / (f * f))%float) A) i * (0 - V_at one i * da))%float
    else None.
Proof.
  cbn [diag_mul msub combine coeffs zeroM].
  rewrite map_lookup_imap, lookup_merge, !map_lookup_imap, lookup_empty.
  rewrite spdiag_lookup.
  destruct (decide (i = j)); [|reflexivity].
  destruct (dA !! i); reflexivity.
Qed.
End Fvf.

(** C5, as stated, fails: for [A = 2] and [dA/dp = 1] in the single cell
    the pressure block of what [fvf] returns is not the diagonal matrix
    of the stored derivative (its coefficient is [-0.25]). *)
Lemma fvf_jacobian_is_not_stored_derivative :
  Impes.block_col (Impes.dA_ Impes.cell_data) 0 1 = Ok [1.0%float]
  /\ AutoDiff.blockPattern Impes.cell_p = [1%nat; 1%nat]
  /\ ~ exists x,
        Impes.fvf Impes.cell_data 0 Impes.cell_p = Ok x
        /\ AutoDiff.jac x !! 0%nat = Some (AutoDiff.spdiag [1.0%float]).
Proof.
  split; [reflexivity|]. split; [reflexivity|].
  intros (x & Hx & Hj). vm_compute in Hx. inversion Hx; subst x; clear Hx.
  apply (f_equal (fun o => match o with
                           | Some m => AutoDiff.coeffs m !! (0%nat, 0%nat)
                           | None => None
                           end)) in Hj.
  vm_compute in Hj. discriminate Hj.
Qed.

(** C5, amended.  For a phase index in range and a pressure quantity
    with the two-block pattern, [fvf] returns [1 / A] (with [A] and [dA]
    the stored columns of the phase) whose block against the well
    bottom-hole pressures is the empty matrix and whose pressure block is
    the quotient-rule image of [diag(dA)]: diagonal, with coefficient
    [(1 / (A_i * A_i)) * (0 - 1 * dA_i)], that is [-dA_i / A_i^2]. *)
Theorem fvf_jacobian (d : Impes.PressureDependentFluidData) (phase : Z)
    (p : AutoDiff.ADB) (A dA : V) (nw : nat) :
  0 <= phase < Impes.np_ d ->
  Impes.block_col (Impes.A_ d) (phase * (Impes.np_ d + 1)) (Impes.nc_ d) = Ok A ->
  Impes.block_col (Impes.dA_ d) (phase * (Impes.np_ d + 1)) (Impes.nc_ d) = Ok dA ->
  Impes.one_ d = Impes.V_Ones (Impes.nc_ d) ->
  AutoDiff.blockPattern p = [length A; nw] ->
  exists x J0,
    Impes.fvf d phase p = Ok x
    /\ AutoDiff.val x = map (fun a => (1 / a)%float) A
    /\ AutoDiff.jac x = [J0; AutoDiff.zeroM (length A) nw]
    /\ AutoDiff.rows J0 = length A
    /\ AutoDiff.cols J0 = length A
    /\ forall i j,
         AutoDiff.coeffs J0 !! (i, j)
         = if decide (i = j)
           then match A !! i, dA !! i with
                | Some a, Some da => Some ((1 / (a * a)) * (0 - 1 * da))%float
                | _, _ => None
                end
           else None.
Proof.
  intros [Hlo Hhi] HA HdA Hone Hpat.
  pose proof (block_col_length _ _ _ _ HA) as LA.
  pose proof (block_col_length _ _ _ _ HdA) as LdA.
  assert (Hjac : exists m0 m1, AutoDiff.jac p = [m0; m1]).
  { unfold AutoDiff.blockPattern in Hpat.
    destruct (AutoDiff.jac p) as [|m0 [|m1 [|m2 l]]]; try discriminate Hpat. eauto. }
  destruct Hjac as (m0 & m1 & Hjac).
  assert (Hblocks : Impes.pressure_blocks A dA p
                    = Ok [AutoDiff.spdiag dA; AutoDiff.zeroM (length A) nw]).
  { unfold Impes.pressure_blocks, AutoDiff.numBlocks. rewrite Hpat, Hjac. cbn.
    replace (length dA =? length A)%nat with true
      by (symmetry; apply Nat.eqb_eq; congruence).
    reflexivity. }
  set (f := {| AutoDiff.val := A;
               AutoDiff.jac := [AutoDiff.spdiag dA; AutoDiff.zeroM (length A) nw] |}).
  assert (Hf : AutoDiff.function A [AutoDiff.spdiag dA; AutoDiff.zeroM (length A) nw] = Ok f).
  { unfold AutoDiff.function. cbn.
    replace (length dA =? length A)%nat with true
      by (symmetry; apply Nat.eqb_eq; congruence).
    rewrite Nat.eqb_refl. reflexivity. }
  assert (Hlen1 : length (Impes.one_ d) = length A).
  { rewrite Hone. unfold Impes.V_Ones. rewrite length_replicate. congruence. }
  assert (Hshape : AutoDiff.same_shape
                     (AutoDiff.constant (Impes.one_ d) (AutoDiff.blockPattern f)) f = true).
  { unfold AutoDiff.same_shape, AutoDiff.constant, AutoDiff.blockPattern. cbn.
    rewrite Hlen1, !Nat.eqb_refl.
    replace (length dA =? length A)%nat with true
      by (symmetry; apply Nat.eqb_eq; congruence).
    rewrite bool_decide_eq_true_2 by reflexivity. reflexivity. }
  eexists. eexists. split.
  { unfold Impes.fvf.
    replace (0 <=? phase) with true by (symmetry; apply Z.leb_le; lia).
    replace (phase <? Impes.np_ d) with true by (symmetry; apply Z.ltb_lt; lia).
    cbn [assert_]. rewrite !mbind_Ok, HA, mbind_Ok, HdA, mbind_Ok, Hblocks, mbind_Ok, Hf,
      mbind_Ok.
    unfold AutoDiff.V_div, AutoDiff.ADB_div. rewrite Hshape.
    cbn [assert_]. rewrite mbind_Ok.
    cbn [f AutoDiff.val AutoDiff.jac AutoDiff.constant AutoDiff.blockPattern map zip_with
         AutoDiff.cols AutoDiff.spdiag AutoDiff.zeroM].
    reflexivity. }
  cbn [AutoDiff.val AutoDiff.jac].
  split; [|split; [|split; [|split]]].
  - rewrite Hone. unfold Impes.V_Ones. rewrite <- LA. apply zip_with_replicate.
  - f_equal. f_equal. rewrite quotient_zero_block, Hlen1. reflexivity.
  - cbn. exact Hlen1.
  - cbn. congruence.
  - intros i j.
    pose proof (quotient_diagonal A dA (Impes.one_ d) (length (Impes.one_ d)) (length dA) i j)
      as H.
    cbn [AutoDiff.zeroM] in H |- *. rewrite H. clear H.
    destruct (decide (i = j)) as [->|]; [|reflexivity].
    destruct (dA !! j) as [da|] eqn:Eda.
    + assert (Hj : (j < length A)%nat).
      { apply lookup_lt_Some in Eda. congruence. }
      destruct (lookup_lt_is_Some_2 A j Hj) as [a Ea]. rewrite Ea.
      unfold AutoDiff.V_at. rewrite list_lookup_fmap, Ea.
      rewrite Hone. unfold Impes.V_Ones.
      rewrite lookup_replicate_2 by lia. reflexivity.
    + destruct (A !! j); reflexivity.
Qed.

(** The theorem at the single cell: [A = 2], [dA = 1]. *)
Lemma fvf_jacobian_witness :
  exists x J0,
    Impes.fvf Impes.cell_data 0 Impes.cell_p = Ok x
    /\ AutoDiff.val x = [0.5%float]
    /\ AutoDiff.jac x = [J0; AutoDiff.zeroM 1 1]
    /\ AutoDiff.coeffs J0 !! (0%nat, 0%nat) = Some (-0.25)%float.
Proof.
  destruct (fvf_jacobian Impes.cell_data 0 Impes.cell_p [2.0%float] [1.0%float] 1)
    as (x & J0 & Hx & Hv & Hj & _ & _ & Hc).
  - cbn. lia.
  - reflexivity.
  - reflexivity.
  - reflexivity.
  - reflexivity.
  - exists x, J0. repeat split; try assumption. rewrite Hc. reflexivity.
Defined.

(** ** Reading the arrays of the adapter *)

Section AdapterMore.
Import AutoDiff Impes.

Lemma mapM_total {A B} (g : A -> B) (f : A -> outcome B) (l : list A) :
  Forall (fun x => f x = Ok (g x)) l -> mapM f l = Ok (map g l).
Proof.
  induction 1 as [|x l Hx _ IH]; cbn; [reflexivity|].
  rewrite Hx. cbn. rewrite IH. reflexivity.
Qed.

Lemma written_shaped a f r c : shaped a r c -> shaped (written a f) r c.
Proof.
  intros (Hr & Hc & Hl). repeat split; cbn; [assumption..|].
  rewrite length_imap. assumption.
Qed.

Lemma DerivedQuant_new_shaped r c junk : shaped (DerivedQuant_new r c junk) r c.
Proof. repeat split. cbn. rewrite length_map, length_seq. reflexivity. Qed.

Lemma written_lookup a f i :
  (i < length (dq_data a))%nat -> dq_data (written a f) !! i = Some (f i).
Proof.
  intros Hi. cbn. rewrite list_lookup_imap.
  destruct (lookup_lt_is_Some_2 _ _ Hi) as [x ->]. reflexivity.
Qed.

(** Reading a column back from an array a callee has just filled. *)
Lemma block_col_written a f r c col nrows :
  shaped a r c -> 0 <= col < c -> 0 <= nrows <= r ->
  block_col (written a f) col nrows = Ok (written_col f c col nrows).
Proof.
  intros (Hr & Hc & Hl) Hcol Hn. unfold block_col. cbn [written dq_rows dq_cols].
  rewrite Hr, Hc.
  replace ((0 <=? col) && (col <? c) && (0 <=? nrows) && (nrows <=? r)) with true.
  2:{ symmetry. rewrite !andb_true_iff, !Z.leb_le, Z.ltb_lt. lia. }
  apply mapM_total. apply Forall_forall. intros i Hi. apply elem_of_seqZ in Hi.
  change (imap (fun i _ => f i) (dq_data a)) with (dq_data (written a f)).
  rewrite written_lookup; [reflexivity|]. rewrite Hl. nia.
Qed.

(** Reading a column of an array that nobody wrote since [a]. *)
Lemma block_col_defined a r c col nrows :
  shaped a r c -> 0 <= col < c -> 0 <= nrows <= r ->
  exists v, block_col a col nrows = Ok v.
Proof.
  intros (Hr & Hc & Hl) Hcol Hn. unfold block_col. rewrite Hr, Hc.
  replace ((0 <=? col) && (col <? c) && (0 <=? nrows) && (nrows <=? r)) with true.
  2:{ symmetry. rewrite !andb_true_iff, !Z.leb_le, Z.ltb_lt. lia. }
  exists (map (fun i => default 0%float (dq_data a !! Z.to_nat (i * c + col))) (seqZ 0 nrows)).
  apply mapM_total. apply Forall_forall. intros i Hi. apply elem_of_seqZ in Hi.
  destruct (lookup_lt_is_Some_2 (dq_data a) (Z.to_nat (i * c + col))) as [x ->];
    [rewrite Hl; nia | reflexivity].
Qed.

Lemma computeSatQuant_Ok state d d' :
  computeSatQuant state d = Ok d' ->
  Z.of_nat (length (saturation state)) = nc_ d * np_ d
  /\ d' = set_kr d (written (kr_ d)
                      (relperm (fluid_ d) (nc_ d) (saturation state) (cells_ d))).
Proof.
  unfold computeSatQuant. cbv zeta. intros H. invert_binds H.
  match goal with E : assert_ _ = Ok _ |- _ => apply assert_Ok, Z.eqb_eq in E end.
  inversion H. auto.
Qed.

Lemma computePressQuant_Ok state d d' :
  computePressQuant state d = Ok d' ->
  Z.of_nat (length (pressure state)) = nc_ d
  /\ Z.of_nat (length (surfacevol state)) = nc_ d * np_ d
  /\ d' = set_press d
            (written (A_ d)
               (fst (matrix (fluid_ d) (nc_ d) (pressure state) (surfacevol state) (cells_ d))))
            (written (dA_ d)
               (snd (matrix (fluid_ d) (nc_ d) (pressure state) (surfacevol state) (cells_ d))))
            (written (mu_ d)
               (viscosity (fluid_ d) (nc_ d) (pressure state) (surfacevol state) (cells_ d))).
Proof.
  unfold computePressQuant. cbv zeta. intros H. invert_binds H.
  repeat match goal with E : assert_ _ = Ok _ |- _ => apply assert_Ok, Z.eqb_eq in E end.
  inversion H. repeat split; [lia | assumption].
Qed.
End AdapterMore.

(** ** The phase-index contract of the adapter *)

Section PhaseIndex.
Import AutoDiff Impes.

(** [fvf] and [phaseViscosity] assert that the phase index is in range
    before anything else. *)
Lemma fvf_phase_assert d phase p :
  ~ (0 <= phase < np_ d) -> fvf d phase p = Fail AssertionFailed.
Proof.
  intros H. unfold fvf.
  destruct (0 <=? phase) eqn:E1; [|reflexivity].
  destruct (phase <? np_ d) eqn:E2; [|reflexivity].
  apply Z.leb_le in E1. apply Z.ltb_lt in E2. lia.
Qed.

Lemma phaseViscosity_phase_assert d phase p :
  ~ (0 <= phase < np_ d) -> phaseViscosity d phase p = Fail AssertionFailed.
Proof.
  intros H. unfold phaseViscosity.
  destruct (0 <=? phase) eqn:E1; [|reflexivity].
  destruct (phase <? np_ d) eqn:E2; [|reflexivity].
  apply Z.leb_le in E1. apply Z.ltb_lt in E2. lia.
Qed.

(** [phaseRelPerm] has no assertion of its own: with a phase index that
    is not a column of [kr_], it is the range check of Eigen's [block]
    that fails. *)
Lemma phaseRelPerm_phase_assert d phase :
  ~ (0 <= phase < dq_cols (kr_ d)) -> phaseRelPerm d phase = Fail AssertionFailed.
Proof.
  intros H. unfold phaseRelPerm, block_col.
  destruct (0 <=? phase) eqn:E1; [|reflexivity].
  destruct (phase <? dq_cols (kr_ d)) eqn:E2; [|reflexivity].
  apply Z.leb_le in E1. apply Z.ltb_lt in E2. lia.
Qed.

(** The Jacobian blocks are built exactly for a pressure quantity of two
    blocks whose first block has one column per entry of [dv]; for
    any other, one of the two assertions on the blocks fails. *)
Lemma pressure_blocks_pattern v dv p :
  match pressure_blocks v dv p with
  | Ok j =>
      exists p1, blockPattern p = [length dv; p1] /\ j = [spdiag dv; zeroM (length v) p1]
  | Fail f => f = AssertionFailed /\ forall p1, blockPattern p <> [length dv; p1]
  end.
Proof.
  unfold pressure_blocks, numBlocks, blockPattern.
  destruct (jac p) as [|m0 [|m1 [|m2 l]]]; cbn;
    try (split; [reflexivity | intros p1; discriminate]).
  destruct (length dv =? cols m0)%nat eqn:E; cbn.
  - apply Nat.eqb_eq in E. exists (cols m1). rewrite E. split; reflexivity.
  - apply Nat.eqb_neq in E. split; [reflexivity|]. intros p1 H. inversion H. congruence.
Qed.

(** With a phase of the fluid, [fvf] on an allocated adapter comes down
    to the blocks, the injection and the reciprocal. *)
Lemma fvf_in_range d phase p :
  allocated d -> 0 <= phase < np_ d ->
  exists A dA,
    length A = Z.to_nat (nc_ d) /\ length dA = Z.to_nat (nc_ d)
    /\ fvf d phase p
       = (jac ← pressure_blocks A dA p; f ← function A jac; V_div (one_ d) f).
Proof.
  intros (Hnc & Hnp & HA & HdA & _) Hphase.
  destruct (block_col_defined _ _ _ (phase * (np_ d + 1)) (nc_ d) HA) as [A EA]; [nia | lia |].
  destruct (block_col_defined _ _ _ (phase * (np_ d + 1)) (nc_ d) HdA) as [dA EdA];
    [nia | lia |].
  exists A, dA.
  split; [exact (block_col_length _ _ _ _ EA)|].
  split; [exact (block_col_length _ _ _ _ EdA)|].
  unfold fvf.
  replace (0 <=? phase) with true by (symmetry; apply Z.leb_le; lia).
  replace (phase <? np_ d) with true by (symmetry; apply Z.ltb_lt; lia).
  cbn [assert_]. rewrite !mbind_Ok, EA, mbind_Ok, EdA, mbind_Ok. reflexivity.
Qed.

Lemma phaseViscosity_in_range d phase p :
  allocated d -> 0 <= phase < np_ d ->
  exists mu dmu,
    length mu = Z.to_nat (nc_ d) /\ length dmu = Z.to_nat (nc_ d)
    /\ phaseViscosity d phase p = (jac ← pressure_blocks mu dmu p; function mu jac).
Proof.
  intros (Hnc & Hnp & _ & _ & Hmu & Hdmu & _) Hphase.
  destruct (block_col_defined _ _ _ phase (nc_ d) Hmu) as [mu Emu]; [lia..|].
  destruct (block_col_defined _ _ _ phase (nc_ d) Hdmu) as [dmu Edmu]; [lia..|].
  exists mu, dmu.
  split; [exact (block_col_length _ _ _ _ Emu)|].
  split; [exact (block_col_length _ _ _ _ Edmu)|].
  unfold phaseViscosity.
  replace (0 <=? phase) with true by (symmetry; apply Z.leb_le; lia).
  replace (phase <? np_ d) with true by (symmetry; apply Z.ltb_lt; lia).
  cbn [assert_]. rewrite !mbind_Ok, Emu, mbind_Ok, Edmu, mbind_Ok. reflexivity.
Qed.

(** The injection of a value with its two blocks, and its reciprocal. *)
Lemma function_blocks_defined (v dv one : V) (nw : nat) :
  length dv = length v -> length one = length v ->
  exists f,
    function v [spdiag dv; zeroM (length v) nw] = Ok f
    /\ exists x, V_div one f = Ok x.
Proof.
  intros Hdv Hone.
  exists {| val := v; jac := [spdiag dv; zeroM (length v) nw] |}. split.
  - unfold function. cbn. rewrite Hdv, !Nat.eqb_refl. reflexivity.
  - unfold V_div, ADB_div, same_shape, constant, blockPattern. cbn.
    rewrite Hone, Hdv, !Nat.eqb_refl.
    rewrite bool_decide_eq_true_2 by reflexivity. cbn. eexists. reflexivity.
Qed.
End PhaseIndex.

(** The adapter of the single cell is what the two refreshes leave. *)
Lemma cell_data_refreshed :
  (d ← Impes.computeSatQuant Impes.cell_state (Impes.pdepfdata_ (Impes.cell_impes true));
   Impes.computePressQuant Impes.cell_state d) = Ok Impes.cell_data.
Proof. reflexivity. Qed.

(** C9, as stated, fails in its second half: a phase index in range does
    not keep every assertion from firing.  [fvf] and [phaseViscosity]
    also assert that the pressure quantity has two blocks; on the
    refreshed adapter of the single cell, with phase 0 and a pressure
    quantity of one block, both stop at that assertion. *)
Lemma phase_in_range_assertion :
  ~ (forall phase p,
       0 <= phase < Impes.np_ Impes.cell_data ->
       Impes.fvf Impes.cell_data phase p <> Fail AssertionFailed
       /\ Impes.phaseViscosity Impes.cell_data phase p <> Fail AssertionFailed).
Proof.
  intros H.
  destruct (H 0 (AutoDiff.constant [10.0%float] [1%nat])) as [Hfvf _]; [cbn; lia|].
  apply Hfvf. vm_compute. reflexivity.
Qed.

(** C9, amended.  On an allocated adapter, with a phase index outside
    [0, np_) each of the three operations stops at a failed assertion:
    [fvf] and [phaseViscosity] at their own, [phaseRelPerm] at the range
    check of the block it reads.  With a phase index in range
    [phaseRelPerm] returns; [fvf] and [phaseViscosity] return when the
    pressure quantity has two blocks of which the first has one column
    per cell, and stop at their assertion on the blocks when it has
    not. *)
Theorem phase_index_contract (d : Impes.PressureDependentFluidData) (phase : Z)
    (p : AutoDiff.ADB) :
  Impes.allocated d ->
  (~ (0 <= phase < Impes.np_ d) ->
     Impes.fvf d phase p = Fail AssertionFailed
     /\ Impes.phaseRelPerm d phase = Fail AssertionFailed
     /\ Impes.phaseViscosity d phase p = Fail AssertionFailed)
  /\ (0 <= phase < Impes.np_ d ->
        (exists kr, Impes.phaseRelPerm d phase = Ok kr)
        /\ ((exists nw, AutoDiff.blockPattern p = [Z.to_nat (Impes.nc_ d); nw]) ->
              (exists b, Impes.fvf d phase p = Ok b)
              /\ (exists mu, Impes.phaseViscosity d phase p = Ok mu))
        /\ ((forall nw, AutoDiff.blockPattern p <> [Z.to_nat (Impes.nc_ d); nw]) ->
              Impes.fvf d phase p = Fail AssertionFailed
              /\ Impes.phaseViscosity d phase p = Fail AssertionFailed)).
Proof.
  intros Hd. split.
  - intros Hout. split; [apply fvf_phase_assert, Hout|].
    split; [|apply phaseViscosity_phase_assert, Hout].
    apply phaseRelPerm_phase_assert.
    destruct Hd as (_ & _ & _ & _ & _ & _ & (_ & Hc & _) & _). rewrite Hc. exact Hout.
  - intros Hin.
    destruct (fvf_in_range d phase p Hd Hin) as (A & dA & LA & LdA & Efvf).
    destruct (phaseViscosity_in_range d phase p Hd Hin) as (mu & dmu & Lmu & Ldmu & Emu).
    rewrite Efvf, Emu.
    pose proof (pressure_blocks_pattern A dA p) as HbA.
    pose proof (pressure_blocks_pattern mu dmu p) as Hbmu.
    rewrite LdA in HbA. rewrite Ldmu in Hbmu.
    split; [|split].
    + destruct Hd as (Hnc & Hnp & _ & _ & _ & _ & Hkr & _).
      apply (block_col_defined _ _ _ phase (Impes.nc_ d) Hkr); lia.
    + intros [nw Hpat].
      destruct (Impes.pressure_blocks A dA p) as [jA|f];
        [|destruct HbA as [_ HbA]; destruct (HbA nw Hpat)].
      destruct (Impes.pressure_blocks mu dmu p) as [jmu|f];
        [|destruct Hbmu as [_ Hbmu]; destruct (Hbmu nw Hpat)].
      destruct HbA as (p1 & _ & ->). destruct Hbmu as (p1' & _ & ->).
      rewrite !mbind_Ok.
      assert (Hone : length (Impes.one_ d) = length A).
      { destruct Hd as (_ & _ & _ & _ & _ & _ & _ & _ & ->).
        unfold Impes.V_Ones. rewrite length_replicate. congruence. }
      destruct (function_blocks_defined A dA (Impes.one_ d) p1) as (f & -> & x & Hx);
        [congruence | exact Hone |].
      destruct (function_blocks_defined mu dmu (Impes.one_ d) p1') as (g & -> & _);
        [congruence | congruence |].
      rewrite mbind_Ok. split; eexists; [exact Hx | reflexivity].
    + intros Hpat.
      destruct (Impes.pressure_blocks A dA p) as [jA|f].
      { destruct HbA as (p1 & HbA & _). destruct (Hpat p1 HbA). }
      destruct (Impes.pressure_blocks mu dmu p) as [jmu|g].
      { destruct Hbmu as (p1 & Hbmu & _). destruct (Hpat p1 Hbmu). }
      destruct HbA as [-> _]. destruct Hbmu as [-> _]. split; reflexivity.
Qed.

(** The theorem at the refreshed adapter of the single cell: phase 1 is
    out of range, phase 0 is the phase of the fluid. *)
Lemma phase_index_contract_witness :
  (Impes.fvf Impes.cell_data 1 Impes.cell_p = Fail AssertionFailed
   /\ Impes.phaseRelPerm Impes.cell_data 1 = Fail AssertionFailed
   /\ Impes.phaseViscosity Impes.cell_data 1 Impes.cell_p = Fail AssertionFailed)
  /\ (exists kr, Impes.phaseRelPerm Impes.cell_data 0 = Ok kr)
  /\ (exists b, Impes.fvf Impes.cell_data 0 Impes.cell_p = Ok b)
  /\ (exists mu, Impes.phaseViscosity Impes.cell_data 0 Impes.cell_p = Ok mu).
Proof.
  assert (Hd : Impes.allocated Impes.cell_data).
  { unfold Impes.allocated. cbn. repeat split; lia. }
  split.
  - apply (phase_index_contract Impes.cell_data 1 Impes.cell_p Hd). cbn. lia.
  - destruct (phase_index_contract Impes.cell_data 0 Impes.cell_p Hd) as [_ Hin].
    destruct Hin as (Hkr & Hok & _); [cbn; lia|].
    destruct Hok as [Hfvf Hmu]; [exists 1%nat; reflexivity|].
    split; [exact Hkr|]. split; [exact Hfvf | exact Hmu].
Defined.

(** * Further properties *)

(** ** Relaxation *)

(** X1.  SOR relaxation with [omega] other than 1 on arrays of one size
    blends every component as [dx * omega + (1 - omega) * dxOld], the old
    [dxOld] being the previous update before its own relaxation, and
    stores the incoming [dx]. *)
Theorem stabilizeNewton_sor (dx dxOld : V) (omega : float) :
  (omega =? 1)%float = false ->
  length dx = length dxOld ->
  NewtonSolver.stabilizeNewton dx dxOld omega NewtonSolver.SOR
  = Ok (zip_with (fun x old => (x * omega + (1 - omega) * old)%float) dx dxOld, dx).
Proof.
  intros Hw Hlen. unfold NewtonSolver.stabilizeNewton, V_zip, V_scale, V_lscale.
  rewrite Hw, !length_map, Hlen, Nat.eqb_refl. cbn. do 2 f_equal.
  rewrite zip_with_fmap_l, zip_with_fmap_r. reflexivity.
Qed.

(** The theorem at [omega = 0.5]: the average of the two updates. *)
Lemma stabilizeNewton_sor_witness :
  NewtonSolver.stabilizeNewton [1.0; 3.0]%float [3.0; 5.0]%float 0.5 NewtonSolver.SOR
  = Ok (zip_with (fun x old => (x * 0.5 + (1 - 0.5) * old)%float)
          [1.0; 3.0]%float [3.0; 5.0]%float, [1.0; 3.0]%float).
Proof.
  apply (stabilizeNewton_sor [1.0; 3.0]%float [3.0; 5.0]%float 0.5); reflexivity.
Defined.

(** X2.  Whatever the relaxation type and the factor, a call that comes
    back has stored the incoming [dx] as the previous update and has
    kept the size of [dx]; damping always comes back, and so does SOR at
    [omega = 1], even on arrays of different sizes, while SOR at another
    factor on arrays of different sizes is out of range. *)
Theorem stabilizeNewton_previous_update (dx dxOld : V) (omega : float)
    (relax_type : NewtonSolver.RelaxType) :
  (forall dx' dxOld',
     NewtonSolver.stabilizeNewton dx dxOld omega relax_type = Ok (dx', dxOld') ->
     dxOld' = dx /\ length dx' = length dx)
  /\ (exists dx', NewtonSolver.stabilizeNewton dx dxOld omega NewtonSolver.DAMPEN
                  = Ok (dx', dx))
  /\ ((omega =? 1)%float = true ->
      NewtonSolver.stabilizeNewton dx dxOld omega relax_type = Ok (dx, dx))
  /\ ((omega =? 1)%float = false -> length dx <> length dxOld ->
      NewtonSolver.stabilizeNewton dx dxOld omega NewtonSolver.SOR = Fail OutOfBounds).
Proof.
  split; [|split; [|split]].
  - intros dx' dxOld'. apply stabilizeNewton_dxOld.
  - unfold NewtonSolver.stabilizeNewton. destruct (omega =? 1)%float; eexists; reflexivity.
  - intros Hw. unfold NewtonSolver.stabilizeNewton. rewrite Hw.
    destruct relax_type; reflexivity.
  - intros Hw Hlen. unfold NewtonSolver.stabilizeNewton, V_zip, V_scale, V_lscale.
    rewrite Hw, !length_map.
    destruct (length dx =? length dxOld)%nat eqn:E; [|reflexivity].
    apply Nat.eqb_eq in E. contradiction.
Qed.

(** ** Oscillation and stagnation detection *)

Section DetectMore.
Import NewtonSolver.
Variables (F0 F1 F2 : list float) (tol : float).

(** The loop over the phases in closed form: the count can only grow, by
    at most one per phase, and the stagnation flag is the conjunction of
    the flags of the phases. *)
Lemma detect_phases_closed ps : forall c st c' st',
  detect_phases F0 F1 F2 tol (c, st) ps = Ok (c', st') ->
  c <= c' <= c + Z.of_nat (length ps)
  /\ st' = st && forallb (phase_stagnant F1 F2) ps.
Proof.
  induction ps as [|p ps IH]; intros c st c' st' H; cbn [detect_phases] in H.
  - inversion H; subst. cbn. rewrite andb_true_r. split; [lia | reflexivity].
  - apply obind_Ok in H as ([c1 st1] & E & H).
    unfold detect_phase in E.
    apply obind_Ok in E as (f0 & E0 & E). apply obind_Ok in E as (f1 & E1 & E).
    apply obind_Ok in E as (f2 & E2 & E). inversion E; subst; clear E.
    apply IH in H as [Hc Hst]. cbn [fst snd length forallb] in *.
    split.
    + destruct (_ && _); lia.
    + rewrite Hst. unfold phase_stagnant at 2.
      destruct (F1 !! p); [|discriminate E1]. destruct (F2 !! p); [|discriminate E2].
      cbn in E1, E2. inversion E1; inversion E2; subst.
      rewrite andb_assoc. reflexivity.
Qed.
End DetectMore.

(** X3.  From [it = 2] on, when the three snapshots are there with at
    least [np] entries each, the stagnation flag is set exactly when no
    phase changed its residual norm by more than a thousandth between
    the two oldest snapshots, relative to the oldest; without a phase
    the step is stagnating and not oscillating. *)
Theorem detectNewtonOscillations_stagnate
    (np : Z) (residual_history : list (list float)) (it : Z) (tol : float)
    (F0 F1 F2 : list float) :
  2 <= it ->
  residual_history !! Z.to_nat it = Some F0 ->
  residual_history !! Z.to_nat (it - 1) = Some F1 ->
  residual_history !! Z.to_nat (it - 2) = Some F2 ->
  np <= Z.of_nat (length F0) -> np <= Z.of_nat (length F1) -> np <= Z.of_nat (length F2) ->
  exists oscillate,
    NewtonSolver.detectNewtonOscillations np residual_history it tol
    = Ok (oscillate, forallb (NewtonSolver.phase_stagnant F1 F2) (seq 0 (Z.to_nat np)))
    /\ (np <= 0 ->
        NewtonSolver.detectNewtonOscillations np residual_history it tol = Ok (false, true)).
Proof.
  intros Hit E0 E1 E2 L0 L1 L2. unfold NewtonSolver.detectNewtonOscillations.
  replace (it <? 2) with false by (symmetry; apply Z.ltb_ge; lia).
  rewrite E0, E1, E2. cbn.
  destruct (detect_phases_defined F0 F1 F2 tol (seq 0 (Z.to_nat np)) (0, true))
    as [[c st] Er].
  { apply Forall_forall. intros p Hp. apply elem_of_seq in Hp. lia. }
  rewrite Er. cbn.
  pose proof (detect_phases_closed _ _ _ _ _ _ _ _ _ Er) as [Hc Hst].
  rewrite length_seq in Hc. cbn in Hst. subst st.
  eexists. split; [reflexivity|].
  intros Hnp. replace (Z.to_nat np) with 0%nat in * by lia. cbn in *.
  replace (1 <? c) with false by (symmetry; apply Z.ltb_ge; lia). reflexivity.
Qed.

(** The theorem at the two-phase history whose phases both alternate. *)
Lemma detectNewtonOscillations_stagnate_witness :
  exists oscillate,
    NewtonSolver.detectNewtonOscillations 2 NewtonSolver.alternating_history 2 0.2
    = Ok (oscillate,
          forallb (NewtonSolver.phase_stagnant [0.5; 1.0]%float [1.0; 2.0]%float)
            (seq 0 (Z.to_nat 2)))
    /\ (2 <= 0 ->
        NewtonSolver.detectNewtonOscillations 2 NewtonSolver.alternating_history 2 0.2
        = Ok (false, true)).
Proof.
  apply (detectNewtonOscillations_stagnate 2 NewtonSolver.alternating_history 2 0.2
           [0.9; 1.8]%float [0.5; 1.0]%float [1.0; 2.0]%float);
    try reflexivity; cbn; lia.
Defined.

(** A step is reported as oscillating only from the third iteration on
    and only with two phases or more. *)
Lemma oscillate_two_phases
    (np : Z) (residual_history : list (list float)) (it : Z) (tol : float)
    (stagnate : bool) :
  NewtonSolver.detectNewtonOscillations np residual_history it tol
  = Ok (true, stagnate) ->
  2 <= it /\ 2 <= np.
Proof.
  intros H. unfold NewtonSolver.detectNewtonOscillations in H.
  destruct (it <? 2) eqn:Eit; [inversion H|]. apply Z.ltb_ge in Eit.
  apply obind_Ok in H as (F0 & _ & H). apply obind_Ok in H as (F1 & _ & H).
  apply obind_Ok in H as (F2 & _ & H). apply obind_Ok in H as ([c st] & E & H).
  apply detect_phases_closed in E as [Hc _]. rewrite length_seq in Hc.
  inversion H as [[Hosc Hst]]. apply Z.ltb_lt in Hosc. lia.
Qed.

(** X4.  With fewer than two phases the detector never reports an
    oscillating step, whatever the history, the iteration and the
    tolerance. *)
Theorem detectNewtonOscillations_needs_two_phases
    (np : Z) (residual_history : list (list float)) (it : Z) (tol : float)
    (oscillate stagnate : bool) :
  np <= 1 ->
  NewtonSolver.detectNewtonOscillations np residual_history it tol
  = Ok (oscillate, stagnate) ->
  oscillate = false.
Proof.
  intros Hnp H. destruct oscillate; [|reflexivity].
  apply oscillate_two_phases in H. lia.
Qed.

(** The theorem at the single phase of a dip and a rebound. *)
Lemma detectNewtonOscillations_needs_two_phases_witness :
  NewtonSolver.detectNewtonOscillations 1 [[1.0]; [0.5]; [0.9]]%float 2 0.2
  = Ok (false, false)
  /\ false = false.
Proof.
  split; [reflexivity|].
  apply (detectNewtonOscillations_needs_two_phases 1 [[1.0]; [0.5]; [0.9]]%float 2 0.2
           false false); [lia | reflexivity].
Defined.

(** ** Every run of [step] *)

Section StepMore.
Import NewtonSolver.
Context {S : Type} (model : PhysicalModel S) (solver : Solver S).

(** A round of the loop that completes, step by step. *)
Lemma newton_iteration_Ok dt lv s tr lv' s' tr' :
  newton_iteration model solver dt lv (s, tr) = Ok (lv', (s', tr')) ->
  exists dx s1 osc stag dx' s2,
    solveJacobianSystem model s = (dx, s1)
    /\ detectNewtonOscillations (numPhases model s1) (residual_norms_history lv)
         (iteration lv) (relaxRelTol solver) = Ok (osc, stag)
    /\ stabilizeNewton dx (dxOld lv) (relaxed solver osc (omega lv)) (relaxType solver)
       = Ok (dx', dx)
    /\ omega lv' = relaxed solver osc (omega lv)
    /\ isOscillate lv' = osc
    /\ iteration lv' = iteration lv + 1
    /\ getConvergence model dt (iteration lv + 1) s2 = (converged lv', s')
    /\ tr' = tr ++ [CallSolveJacobianSystem]
                ++ (if osc && terminalOutputEnabled model s1
                    then [PrintRelaxation (relaxed solver osc (omega lv))] else [])
                ++ [CallUpdateState dx'; CallAssemble false; CallComputeResidualNorms;
                    CallGetConvergence (iteration lv + 1)].
Proof.
  rewrite newton_iteration_run.
  destruct (solveJacobianSystem model s) as [dx s1].
  destruct (detectNewtonOscillations _ _ _ _) as [[osc stag]|f] eqn:Ed; [|discriminate].
  cbn zeta.
  destruct (stabilizeNewton _ _ _ _) as [[dx' dxOld']|f] eqn:Es; [|discriminate].
  destruct (computeResidualNorms model _) as [norms s2].
  destruct (getConvergence model dt _ s2) as [conv s3] eqn:Ec.
  intros H. inversion H; subst; clear H. cbn.
  pose proof (stabilizeNewton_dxOld _ _ _ _ _ _ Es) as [Hold _]. subst dxOld'.
  exists dx, s1, osc, stag, dx', s2. repeat split; try reflexivity; assumption.
Qed.

(** What holds before the loop and is kept by every round holds after
    the loop. *)
Lemma newton_loop_invariant (P : LoopVars -> list Call -> Prop) dt :
  (forall lv s tr lv' s' tr',
     P lv tr ->
     newton_iteration model solver dt lv (s, tr) = Ok (lv', (s', tr')) ->
     P lv' tr') ->
  forall fuel lv s tr lv' s' tr',
    P lv tr ->
    newton_loop model solver fuel dt lv (s, tr) = Ok (lv', (s', tr')) ->
    P lv' tr'.
Proof.
  intros Hstep. induction fuel as [|fuel IH]; intros lv s tr lv' s' tr' HP H;
    cbn [newton_loop] in H; destruct (loop_condition solver lv).
  - discriminate H.
  - inversion H; subst. exact HP.
  - unfold mbind, Exec_bind in H.
    destruct (newton_iteration model solver dt lv (s, tr)) as [[lv1 [s1 tr1]]|f] eqn:E1;
      [|discriminate H].
    eapply IH; [|exact H]. eapply Hstep; eassumption.
  - inversion H; subst. exact HP.
Qed.

(** What holds of the loop variables and the calls on entry to the loop
    and is kept by every round holds when the loop is left. *)
Lemma newton_iterations_invariant (P : LoopVars -> list Call -> Prop) dt :
  (forall conv n norms,
     (exists s0, conv = fst (getConvergence model dt 0 s0)) ->
     P (loop_entry conv n norms)
       [CallPrepareStep; CallAssemble true; CallComputeResidualNorms;
        CallGetConvergence 0]) ->
  (forall lv s tr lv' s' tr',
     P lv tr ->
     newton_iteration model solver dt lv (s, tr) = Ok (lv', (s', tr')) ->
     P lv' tr') ->
  forall lv s tr,
    newton_iterations model solver dt (model_ solver, []) = Ok (lv, (s, tr)) ->
    P lv tr.
Proof.
  intros Hentry Hstep lv s tr. rewrite newton_iterations_run.
  destruct (computeResidualNorms model _) as [norms s2].
  destruct (getConvergence model dt 0 s2) as [conv s3] eqn:Ec.
  apply newton_loop_invariant; [exact Hstep|].
  apply Hentry. exists s2. rewrite Ec. reflexivity.
Qed.

(** A [step] that comes back, as its loop and its way out. *)
Lemma step_Ok dt r :
  step model solver dt = Ok r ->
  exists s tr,
    newton_iterations model solver dt (model_ solver, []) = Ok (at_exit r, (s, tr))
    /\ calls r
       = tr ++ (if converged (at_exit r) then [CallAfterStep]
                else if terminalOutputEnabled model s
                     then [PrintNotConverged (iteration (at_exit r))] else [])
    /\ returned r = (if converged (at_exit r) then linearIterations (at_exit r) else -1)
    /\ solver_after r
       = (if converged (at_exit r)
          then counted solver (iteration (at_exit r)) (linearIterations (at_exit r))
                 (afterStep model dt s)
          else set_model solver s).
Proof.
  rewrite step_run.
  destruct (newton_iterations model solver dt _) as [[lv [s tr]]|f]; [|discriminate].
  destruct (converged lv) eqn:Hc; intros H; inversion H; subst; clear H; cbn;
    rewrite Hc; exists s, tr; repeat split; reflexivity.
Qed.

Lemma count_snoc f tr c : count f (tr ++ [c]) = count f tr + (if f c then 1 else 0).
Proof. rewrite count_app. unfold count. cbn. destruct (f c); reflexivity. Qed.

(** The calls of a round, counted. *)
Lemma newton_iteration_counts dt lv s tr lv' s' tr' :
  newton_iteration model solver dt lv (s, tr) = Ok (lv', (s', tr')) ->
  count is_initial_assemble tr' = count is_initial_assemble tr
  /\ count is_norms tr' = count is_norms tr + 1.
Proof.
  intros H. apply newton_iteration_Ok in H
    as (dx & s1 & osc & stag & dx' & s2 & _ & _ & _ & _ & _ & _ & _ & ->).
  rewrite !count_app. destruct (osc && _); split; unfold count; cbn; lia.
Qed.
End StepMore.

(** X5.  Whatever the model and the parameters, a [step] that comes back
    has issued as many linear solves and as many updates as it counted
    iterations, one assembly and one computation of the residual norms
    more than that, a single assembly flagged as the initial one, and
    [afterStep] once if it ends converged and not at all otherwise. *)
Theorem step_call_counts {S} (model : NewtonSolver.PhysicalModel S)
    (solver : NewtonSolver.Solver S) (dt : float) (r : NewtonSolver.StepResult) :
  NewtonSolver.step model solver dt = Ok r ->
  let n := NewtonSolver.iteration (NewtonSolver.at_exit r) in
  NewtonSolver.count NewtonSolver.is_solve (NewtonSolver.calls r) = n
  /\ NewtonSolver.count NewtonSolver.is_update (NewtonSolver.calls r) = n
  /\ NewtonSolver.count NewtonSolver.is_assemble (NewtonSolver.calls r) = n + 1
  /\ NewtonSolver.count NewtonSolver.is_norms (NewtonSolver.calls r) = n + 1
  /\ NewtonSolver.count NewtonSolver.is_initial_assemble (NewtonSolver.calls r) = 1
  /\ NewtonSolver.count NewtonSolver.is_afterStep (NewtonSolver.calls r)
     = (if NewtonSolver.converged (NewtonSolver.at_exit r) then 1 else 0).
Proof.
  intros H. cbv zeta. apply step_Ok in H as (s & tr & E & -> & _ & _).
  pose proof (newton_iterations_trace _ _ _ _ _ _ E) as (T1 & T2 & T3 & T4 & _).
  assert (T5 : NewtonSolver.count NewtonSolver.is_initial_assemble tr = 1
               /\ NewtonSolver.count NewtonSolver.is_norms tr
                  = NewtonSolver.iteration (NewtonSolver.at_exit r) + 1).
  { revert E.
    apply (newton_iterations_invariant model solver
             (fun lv tr => NewtonSolver.count NewtonSolver.is_initial_assemble tr = 1
                           /\ NewtonSolver.count NewtonSolver.is_norms tr
                              = NewtonSolver.iteration lv + 1)).
    - intros conv n norms _. split; reflexivity.
    - intros lv s0 tr0 lv' s' tr' [P1 P2] Hit.
      pose proof (newton_iteration_counts _ _ _ _ _ _ _ _ _ Hit) as [C1 C2].
      apply newton_iteration_trace in Hit as (_ & I & _). lia. }
  destruct T5 as [T5 T6]. rewrite !count_app, T1, T2, T3, T4, T5, T6.
  destruct (NewtonSolver.converged (NewtonSolver.at_exit r));
    [|destruct (NewtonSolver.terminalOutputEnabled model s)];
    repeat split; unfold NewtonSolver.count; cbn; lia.
Qed.

(** The theorem at the toy model that converges at once, under the
    default parameters. *)
Lemma step_call_counts_witness :
  exists r,
    NewtonSolver.step NewtonSolver.settled_model
      (NewtonSolver.fresh_solver NewtonSolver.reset) 1.0 = Ok r
    /\ NewtonSolver.count NewtonSolver.is_solve (NewtonSolver.calls r) = 1
    /\ NewtonSolver.count NewtonSolver.is_assemble (NewtonSolver.calls r) = 1 + 1
    /\ NewtonSolver.count NewtonSolver.is_initial_assemble (NewtonSolver.calls r) = 1.
Proof.
  eexists. split; [vm_compute; reflexivity|].
  match goal with
  | |- context [NewtonSolver.calls ?r] =>
      destruct (step_call_counts NewtonSolver.settled_model
                  (NewtonSolver.fresh_solver NewtonSolver.reset) 1.0 r
                  ltac:(vm_compute; reflexivity)) as (H1 & _ & H3 & _ & H5 & _)
  end.
  repeat split; assumption.
Defined.

(** X6.  Whatever the model, a [step] that comes back has counted at
    least [min_iter] iterations and at most the largest of 0, [max_iter]
    and [min_iter]; if it ends unconverged it has counted at least
    [max_iter] and returns -1. *)
Theorem step_iteration_bounds {S} (model : NewtonSolver.PhysicalModel S)
    (solver : NewtonSolver.Solver S) (dt : float) (r : NewtonSolver.StepResult) :
  NewtonSolver.step model solver dt = Ok r ->
  let n := NewtonSolver.iteration (NewtonSolver.at_exit r) in
  NewtonSolver.minIter solver <= n
  /\ 0 <= n <= Z.max 0 (Z.max (NewtonSolver.maxIter solver) (NewtonSolver.minIter solver))
  /\ (NewtonSolver.converged (NewtonSolver.at_exit r) = false ->
      NewtonSolver.maxIter solver <= n /\ NewtonSolver.returned r = -1).
Proof.
  intros H. cbv zeta. apply step_Ok in H as (s & tr & E & _ & Hret & _).
  pose proof (newton_iterations_trace _ _ _ _ _ _ E) as (_ & _ & _ & _ & Hc & Hit & _).
  unfold NewtonSolver.loop_condition in Hc.
  apply orb_false_iff in Hc as [Hc1 Hc2].
  assert (Hmin : NewtonSolver.minIter solver <= NewtonSolver.iteration (NewtonSolver.at_exit r)).
  { destruct (Z.gtb_spec (NewtonSolver.minIter solver)
                (NewtonSolver.iteration (NewtonSolver.at_exit r))); [discriminate | lia]. }
  split; [exact Hmin|]. split; [exact Hit|].
  intros Hconv. rewrite Hconv in Hc1, Hret. cbn in Hc1. apply Z.ltb_ge in Hc1. auto.
Qed.

(** The theorem at the toy model that never converges. *)
Lemma step_iteration_bounds_witness :
  exists r,
    NewtonSolver.step NewtonSolver.stuck_model
      (NewtonSolver.fresh_solver NewtonSolver.reset) 1.0 = Ok r
    /\ 1 <= NewtonSolver.iteration (NewtonSolver.at_exit r)
    /\ NewtonSolver.iteration (NewtonSolver.at_exit r) <= 15.
Proof.
  eexists. split; [vm_compute; reflexivity|].
  match goal with
  | |- context [NewtonSolver.at_exit ?r] =>
      destruct (step_iteration_bounds NewtonSolver.stuck_model
                  (NewtonSolver.fresh_solver NewtonSolver.reset) 1.0 r
                  ltac:(vm_compute; reflexivity)) as (H1 & [_ H2] & _)
  end.
  split; [exact H1 | exact H2].
Defined.



(** No double is below itself. *)
Lemma ltb_irrefl (x : float) : (x <? x)%float = false.
Proof.
  rewrite ltb_spec. unfold SFltb, SFcompare.
  destruct (Prim2SF x) as [s|s| |s m e]; try reflexivity; try (destruct s; reflexivity).
  change (IntDef.Z.compare e e) with (Z.compare e e).
  change (PosDef.Pos.compare_cont Eq m m) with (Pos.compare m m).
  rewrite Z.compare_refl, Pos.compare_refl. destruct s; reflexivity.
Qed.

(** [std::max(a, b)] is never below [b]. *)
Lemma std_max_floor (a b : float) : (std_max a b <? b)%float = false.
Proof.
  unfold std_max. destruct (a <? b)%float eqn:E; [apply ltb_irrefl | exact E].
Qed.

(** X8.  The relaxation factor with which [step] leaves the loop is
    either still the 1.0 it starts from or not below [relax_max]. *)
Theorem step_relaxation_floor {S} (model : NewtonSolver.PhysicalModel S)
    (solver : NewtonSolver.Solver S) (dt : float) (r : NewtonSolver.StepResult) :
  NewtonSolver.step model solver dt = Ok r ->
  NewtonSolver.omega (NewtonSolver.at_exit r) = 1%float
  \/ (NewtonSolver.omega (NewtonSolver.at_exit r) <? NewtonSolver.relaxMax solver)%float
     = false.
Proof.
  intros H. apply step_Ok in H as (s & tr & E & _). revert E.
  apply (newton_iterations_invariant model solver
           (fun lv _ => NewtonSolver.omega lv = 1%float
                        \/ (NewtonSolver.omega lv <? NewtonSolver.relaxMax solver)%float
                           = false)).
  - intros conv n norms _. left. reflexivity.
  - intros lv s0 tr0 lv' s' tr' HP Hround.
    apply newton_iteration_Ok in Hround
      as (dx & s1 & osc & stag & dx' & s2 & _ & _ & _ & -> & _).
    unfold NewtonSolver.relaxed. destruct osc; [right|exact HP].
    apply std_max_floor.
Qed.

(** The theorem at the two-phase model whose norms swing: the factor
    has come down to the floor of 0.5. *)
Lemma step_relaxation_floor_witness :
  exists r,
    NewtonSolver.step NewtonSolver.seesaw_model NewtonSolver.seesaw_solver 1.0 = Ok r
    /\ NewtonSolver.omega (NewtonSolver.at_exit r) = 0.5%float
    /\ (NewtonSolver.omega (NewtonSolver.at_exit r) = 1%float
        \/ (NewtonSolver.omega (NewtonSolver.at_exit r) <? 0.5)%float = false).
Proof.
  eexists. split; [vm_compute; reflexivity|]. split; [reflexivity|].
  match goal with
  | |- context [NewtonSolver.at_exit ?r] =>
      apply (step_relaxation_floor NewtonSolver.seesaw_model NewtonSolver.seesaw_solver
               1.0 r)
  end.
  vm_compute. reflexivity.
Defined.

(** X9.  A model with fewer than two phases is never relaxed: a [step]
    that comes back has kept the relaxation factor at 1.0 and has printed
    no relaxation message. *)
Theorem step_single_phase_unrelaxed {S} (model : NewtonSolver.PhysicalModel S)
    (solver : NewtonSolver.Solver S) (dt : float) (r : NewtonSolver.StepResult) :
  (forall s, NewtonSolver.numPhases model s <= 1) ->
  NewtonSolver.step model solver dt = Ok r ->
  NewtonSolver.omega (NewtonSolver.at_exit r) = 1%float
  /\ NewtonSolver.count NewtonSolver.is_relaxation (NewtonSolver.calls r) = 0.
Proof.
  intros Hnp H. apply step_Ok in H as (s & tr & E & -> & _).
  assert (HP : NewtonSolver.omega (NewtonSolver.at_exit r) = 1%float
               /\ NewtonSolver.count NewtonSolver.is_relaxation tr = 0).
  { revert E.
    apply (newton_iterations_invariant model solver
             (fun lv tr => NewtonSolver.omega lv = 1%float
                           /\ NewtonSolver.count NewtonSolver.is_relaxation tr = 0)).
    - intros conv n norms _. split; reflexivity.
    - intros lv s0 tr0 lv' s' tr' (Hw & Hc) Hround.
      apply newton_iteration_Ok in Hround
        as (dx & s1 & osc & stag & dx' & s2 & Hsolve & Hdet & Hstab & -> & _ & _ & _ & ->).
      assert (Hosc : osc = false).
      { destruct osc; [|reflexivity].
        apply oscillate_two_phases in Hdet. specialize (Hnp s1). lia. }
      subst osc. cbn [NewtonSolver.relaxed andb app] in *.
      split; [exact Hw|]. rewrite count_app, Hc. reflexivity. }
  destruct HP as (Hw & Hc). split; [exact Hw|].
  rewrite count_app, Hc.
  destruct (NewtonSolver.converged _); [|destruct (NewtonSolver.terminalOutputEnabled _ _)];
    reflexivity.
Qed.

(** The theorem at the single-phase toy model that never converges. *)
Lemma step_single_phase_unrelaxed_witness :
  exists r,
    NewtonSolver.step NewtonSolver.stuck_model
      (NewtonSolver.fresh_solver NewtonSolver.reset) 1.0 = Ok r
    /\ NewtonSolver.omega (NewtonSolver.at_exit r) = 1%float
    /\ NewtonSolver.count NewtonSolver.is_relaxation (NewtonSolver.calls r) = 0.
Proof.
  eexists. split; [vm_compute; reflexivity|].
  match goal with
  | |- context [NewtonSolver.at_exit ?r] =>
      apply (step_single_phase_unrelaxed NewtonSolver.stuck_model
               (NewtonSolver.fresh_solver NewtonSolver.reset) 1.0 r)
  end.
  - intros s. cbn. lia.
  - vm_compute. reflexivity.
Defined.



(** ** The counters and the parameters *)




(** X12.  [SolverParameters(param)] takes [relax_max], [max_iter] and
    [min_iter] from the parameters when they are set and the defaults
    otherwise; the relaxation increment and the oscillation tolerance
    are the defaults 0.1 and 0.2 whatever the parameters say; the
    relaxation type is DAMPEN when [relax_type] is not set or is
    ["dampen"], SOR when it is ["sor"], and any other string, ["SOR"]
    for one, ends the construction with an exception that names it. *)
Theorem SolverParameters_of_spec (param : NewtonSolver.ParameterGroup) :
  match NewtonSolver.SolverParameters_of param with
  | Ok p =>
      NewtonSolver.relax_increment_ p = 0.1%float
      /\ NewtonSolver.relax_rel_tol_ p = 0.2%float
      /\ NewtonSolver.relax_max_ p
         = NewtonSolver.getDefault (NewtonSolver.get_double param) "relax_max" 0.5%float
      /\ NewtonSolver.max_iter_ p
         = NewtonSolver.getDefault (NewtonSolver.get_int param) "max_iter" 15
      /\ NewtonSolver.min_iter_ p
         = NewtonSolver.getDefault (NewtonSolver.get_int param) "min_iter" 1
      /\ match NewtonSolver.get_string param "relax_type" with
         | None => NewtonSolver.relax_type_ p = NewtonSolver.DAMPEN
         | Some t =>
             (t = "dampen"%string /\ NewtonSolver.relax_type_ p = NewtonSolver.DAMPEN)
             \/ (t = "sor"%string /\ NewtonSolver.relax_type_ p = NewtonSolver.SOR)
         end
  | Fail f =>
      exists t,
        NewtonSolver.get_string param "relax_type" = Some t
        /\ t <> "dampen"%string /\ t <> "sor"%string
        /\ f = Exception (String.append "Unknown Relaxtion Type " t)
  end
  /\ NewtonSolver.SolverParameters_of NewtonSolver.no_parameters = Ok NewtonSolver.reset
  /\ NewtonSolver.SolverParameters_of
       {| NewtonSolver.get_double := fun _ => None;
          NewtonSolver.get_int := fun _ => None;
          NewtonSolver.get_string := fun _ => Some "SOR"%string |}
     = Fail (Exception "Unknown Relaxtion Type SOR").
Proof.
  split; [|split; reflexivity].
  unfold NewtonSolver.SolverParameters_of. cbv zeta.
  assert (Ht : NewtonSolver.getDefault (NewtonSolver.get_string param)
                 "relax_type" "dampen"%string
               = match NewtonSolver.get_string param "relax_type" with
                 | Some t => t
                 | None => "dampen"%string
                 end) by reflexivity.
  rewrite Ht. clear Ht.
  destruct (NewtonSolver.get_string param "relax_type") as [t|] eqn:Et.
  - destruct (String.eqb_spec t "dampen"%string) as [Hd|Hd]; [subst t|].
    + cbn. repeat split; try reflexivity. left. split; reflexivity.
    + destruct (String.eqb_spec t "sor"%string) as [Hs|Hs]; [subst t|].
      * cbn. repeat split; try reflexivity. right. split; reflexivity.
      * exists t. repeat split; assumption.
  - cbn. repeat split; reflexivity.
Qed.

(** ** The property adapter: shapes, refreshes and accessors *)

(** X13.  The shapes of the adapter's arrays are an invariant: the
    constructor establishes them for a non-negative number of cells and
    of phases, and a saturation refresh or a pressure refresh that goes
    through keeps them, together with [nc_], [np_], [cells_] and [one_]. *)
Theorem allocated_invariant :
  (forall nc fluid junk,
      0 <= nc -> 0 <= Impes.fluid_numPhases fluid ->
      Impes.allocated (Impes.PressureDependentFluidData_new nc fluid junk))
  /\ (forall state d d',
        Impes.allocated d -> Impes.computeSatQuant state d = Ok d' -> Impes.allocated d')
  /\ (forall state d d',
        Impes.allocated d -> Impes.computePressQuant state d = Ok d' -> Impes.allocated d').
Proof.
  split; [|split].
  - intros nc fluid junk Hnc Hnp. unfold Impes.allocated.
    cbn [Impes.PressureDependentFluidData_new Impes.nc_ Impes.np_ Impes.A_ Impes.dA_
         Impes.mu_ Impes.dmu_ Impes.kr_ Impes.cells_ Impes.one_].
    repeat match goal with |- _ /\ _ => split end;
      first [assumption | apply DerivedQuant_new_shaped | reflexivity].
  - intros state d d' (Hnc & Hnp & HA & HdA & Hmu & Hdmu & Hkr & Hcells & Hone) H.
    apply computeSatQuant_Ok in H as [_ ->]. unfold Impes.allocated.
    cbn [Impes.set_kr Impes.nc_ Impes.np_ Impes.A_ Impes.dA_
         Impes.mu_ Impes.dmu_ Impes.kr_ Impes.cells_ Impes.one_].
    repeat match goal with |- _ /\ _ => split end;
      first [assumption | apply written_shaped; assumption].
  - intros state d d' (Hnc & Hnp & HA & HdA & Hmu & Hdmu & Hkr & Hcells & Hone) H.
    apply computePressQuant_Ok in H as (_ & _ & ->). unfold Impes.allocated.
    cbn [Impes.set_press Impes.nc_ Impes.np_ Impes.A_ Impes.dA_
         Impes.mu_ Impes.dmu_ Impes.kr_ Impes.cells_ Impes.one_].
    repeat match goal with |- _ /\ _ => split end;
      first [assumption | apply written_shaped; assumption].
Qed.

(** X14.  After a saturation refresh of an allocated adapter,
    [phaseRelPerm] of a phase of the fluid returns, cell by cell, what
    the fluid's [relperm] wrote for that phase: entry [c * np + phase] of
    the row-major array, computed from the state's saturations over all
    cells. *)
Theorem phaseRelPerm_refreshed (state : Impes.BlackoilState)
    (d d' : Impes.PressureDependentFluidData) (phase : Z) :
  Impes.allocated d ->
  Impes.computeSatQuant state d = Ok d' ->
  0 <= phase < Impes.np_ d ->
  Impes.phaseRelPerm d' phase
  = Ok (Impes.written_col
          (Impes.relperm (Impes.fluid_ d) (Impes.nc_ d) (Impes.saturation state)
             (Impes.buildAllCells (Impes.nc_ d)))
          (Impes.np_ d) phase (Impes.nc_ d)).
Proof.
  intros (Hnc & Hnp & _ & _ & _ & _ & Hkr & Hcells & _) H Hphase.
  apply computeSatQuant_Ok in H as [_ ->]. unfold Impes.phaseRelPerm. cbn.
  rewrite Hcells.
  apply (block_col_written _ _ (Impes.nc_ d) (Impes.np_ d)); [assumption | lia..].
Qed.

(** The theorem at the single cell, whose relative permeability is 1. *)
Lemma phaseRelPerm_refreshed_witness :
  exists d',
    Impes.computeSatQuant Impes.cell_state (Impes.pdepfdata_ (Impes.cell_impes true)) = Ok d'
    /\ Impes.phaseRelPerm d' 0 = Ok [1.0%float].
Proof.
  eexists. split; [reflexivity|].
  apply (phaseRelPerm_refreshed Impes.cell_state (Impes.pdepfdata_ (Impes.cell_impes true))
           _ 0).
  - unfold Impes.allocated. cbn. repeat split; lia.
  - reflexivity.
  - cbn. lia.
Defined.

(** X15.  The pressure refresh never writes [dmu_]: the viscosity
    derivative is handed to the fluid as a null pointer.  So after a
    pressure refresh of an allocated adapter, [phaseViscosity] of a phase
    of the fluid and a pressure quantity with the two-block pattern
    returns the viscosities the fluid wrote for that phase, with a
    pressure block that is the diagonal of the column of [dmu_] as it
    was before the refresh, and an empty block against the wells. *)
Theorem phaseViscosity_stale_derivative (state : Impes.BlackoilState)
    (d d' : Impes.PressureDependentFluidData) (phase : Z) (p : AutoDiff.ADB) (nw : nat) :
  Impes.allocated d ->
  Impes.computePressQuant state d = Ok d' ->
  0 <= phase < Impes.np_ d ->
  AutoDiff.blockPattern p = [Z.to_nat (Impes.nc_ d); nw] ->
  exists dmu,
    Impes.block_col (Impes.dmu_ d) phase (Impes.nc_ d) = Ok dmu
    /\ Impes.dmu_ d' = Impes.dmu_ d
    /\ Impes.phaseViscosity d' phase p
       = Ok {| AutoDiff.val :=
                 Impes.written_col
                   (Impes.viscosity (Impes.fluid_ d) (Impes.nc_ d) (Impes.pressure state)
                      (Impes.surfacevol state) (Impes.buildAllCells (Impes.nc_ d)))
                   (Impes.np_ d) phase (Impes.nc_ d);
               AutoDiff.jac := [AutoDiff.spdiag dmu;
                                AutoDiff.zeroM (Z.to_nat (Impes.nc_ d)) nw] |}.
Proof.
  intros (Hnc & Hnp & _ & _ & Hmu & Hdmu & _ & Hcells & _) H Hphase Hpat.
  apply computePressQuant_Ok in H as (_ & _ & ->).
  destruct (block_col_defined _ _ _ phase (Impes.nc_ d) Hdmu) as [dmu Edmu]; [lia..|].
  exists dmu. split; [exact Edmu|]. split; [reflexivity|].
  pose proof (block_col_length _ _ _ _ Edmu) as Ldmu.
  unfold Impes.phaseViscosity. cbn [Impes.set_press Impes.np_ Impes.nc_ Impes.mu_ Impes.dmu_].
  replace (0 <=? phase) with true by (symmetry; apply Z.leb_le; lia).
  replace (phase <? Impes.np_ d) with true by (symmetry; apply Z.ltb_lt; lia).
  cbn [assert_]. rewrite !mbind_Ok.
  rewrite (block_col_written _ _ (Impes.nc_ d) (Impes.np_ d)) by (assumption || lia).
  rewrite mbind_Ok, Edmu, mbind_Ok, Hcells.
  set (mu := Impes.written_col _ _ _ _).
  assert (Lmu : length mu = Z.to_nat (Impes.nc_ d)).
  { unfold mu, Impes.written_col. rewrite length_map, length_seqZ. reflexivity. }
  assert (Hjac : exists m0 m1, AutoDiff.jac p = [m0; m1]).
  { unfold AutoDiff.blockPattern in Hpat.
    destruct (AutoDiff.jac p) as [|m0 [|m1 [|m2 l]]]; try discriminate Hpat. eauto. }
  destruct Hjac as (m0 & m1 & Hjac).
  unfold Impes.pressure_blocks, AutoDiff.numBlocks. rewrite Hjac, Hpat. cbn.
  rewrite Ldmu, Nat.eqb_refl. cbn.
  unfold AutoDiff.function. cbn. rewrite Ldmu, Lmu, Nat.eqb_refl. cbn.
  reflexivity.
Qed.

(** The theorem at the single cell: the derivative block holds the 7.0
    the constructor found in memory, not a derivative of the viscosity
    4.0. *)
Lemma phaseViscosity_stale_derivative_witness :
  exists d',
    Impes.computePressQuant Impes.cell_state (Impes.pdepfdata_ (Impes.cell_impes true)) = Ok d'
    /\ Impes.phaseViscosity d' 0 Impes.cell_p
       = Ok {| AutoDiff.val := [4.0%float];
               AutoDiff.jac := [AutoDiff.spdiag [7.0%float]; AutoDiff.zeroM 1 1] |}.
Proof.
  eexists. split; [reflexivity|].
  destruct (phaseViscosity_stale_derivative Impes.cell_state
              (Impes.pdepfdata_ (Impes.cell_impes true))
              (Impes.set_press (Impes.pdepfdata_ (Impes.cell_impes true))
                 {| Impes.dq_rows := 1; Impes.dq_cols := 1; Impes.dq_data := [2.0%float] |}
                 {| Impes.dq_rows := 1; Impes.dq_cols := 1; Impes.dq_data := [1.0%float] |}
                 {| Impes.dq_rows := 1; Impes.dq_cols := 1; Impes.dq_data := [4.0%float] |})
              0 Impes.cell_p 1%nat) as (dmu & Edmu & _ & H).
  - unfold Impes.allocated. cbn. repeat split; lia.
  - reflexivity.
  - cbn. lia.
  - reflexivity.
  - cbn in Edmu. inversion Edmu; subst dmu. exact H.
Defined.

(** X16.  The two refreshes write disjoint arrays and check sizes that
    neither changes: in either order they end in the same adapter, or
    both orders end in a failed assertion. *)
Theorem refreshes_commute (state : Impes.BlackoilState)
    (d : Impes.PressureDependentFluidData) :
  (d1 ← Impes.computeSatQuant state d; Impes.computePressQuant state d1)
  = (d1 ← Impes.computePressQuant state d; Impes.computeSatQuant state d1)
  /\ forall f,
       (d1 ← Impes.computeSatQuant state d; Impes.computePressQuant state d1) = Fail f ->
       f = AssertionFailed.
Proof.
  unfold Impes.computeSatQuant, Impes.computePressQuant. cbv zeta.
  destruct (Z.of_nat (length (Impes.saturation state)) =? Impes.nc_ d * Impes.np_ d) eqn:E1;
    destruct (Z.of_nat (length (Impes.pressure state)) =? Impes.nc_ d * 1) eqn:E2;
    destruct (Z.of_nat (length (Impes.surfacevol state)) =? Impes.nc_ d * Impes.np_ d) eqn:E3;
    cbn; rewrite ?E1, ?E2, ?E3; cbn; rewrite ?E1; cbn;
    (split; [reflexivity | intros f H; inversion H; reflexivity]).
Qed.

(** ** The assembler: what a completed run certifies and leaves alone *)

Section AssemblerMore.
Import AutoDiff Impes.

(** Every phase the loop went through passed the phase check of [fvf]. *)
Lemma assemble_phases_checked o d pv delta_t z0all qall upwind p nkgradp phases :
  forall r r',
  assemble_phases o d pv delta_t z0all qall upwind p nkgradp r phases = Ok r' ->
  Forall (fun phase => 0 <= phase < np_ d) phases.
Proof.
  induction phases as [|phase phases IH]; intros r r' H; cbn [assemble_phases] in H.
  - constructor.
  - invert_binds H. constructor; [|eapply IH; eassumption].
    match goal with
    | E : assemble_phase _ _ _ _ _ _ _ _ _ _ _ = Ok _ |- _ =>
        unfold assemble_phase in E; cbv zeta in E; invert_binds E
    end.
    destruct (decide (0 <= phase < np_ d)) as [Hin|Hout]; [exact Hin|].
    match goal with
    | E : fvf d phase p = Ok _ |- _ =>
        rewrite (fvf_phase_assert d phase p Hout) in E; discriminate E
    end.
Qed.

(** A round of the loop reads the object only for the number of cells
    and the operators. *)
Lemma assemble_phase_ext o o' d pv delta_t z0all qall upwind p nkgradp r phase :
  grid_number_of_cells o = grid_number_of_cells o' -> ops_ o = ops_ o' ->
  assemble_phase o d pv delta_t z0all qall upwind p nkgradp r phase
  = assemble_phase o' d pv delta_t z0all qall upwind p nkgradp r phase.
Proof. intros Hg Ho. unfold assemble_phase. rewrite Hg, Ho. reflexivity. Qed.

Lemma assemble_phases_ext o o' d pv delta_t z0all qall upwind p nkgradp phases :
  grid_number_of_cells o = grid_number_of_cells o' -> ops_ o = ops_ o' ->
  forall r,
  assemble_phases o d pv delta_t z0all qall upwind p nkgradp r phases
  = assemble_phases o' d pv delta_t z0all qall upwind p nkgradp r phases.
Proof.
  intros Hg Ho. induction phases as [|phase phases IH]; intros r; cbn [assemble_phases].
  - reflexivity.
  - rewrite (assemble_phase_ext o o') by assumption.
    destruct (assemble_phase _ _ _ _ _ _ _ _ _ _ _) as [r1|f]; [|reflexivity].
    change (mbind ?k (Ok r1)) with (k r1). cbv beta. apply IH.
Qed.

(** What a completed assembly has checked on its way. *)
Lemma assemble_checked dt state well_state o o' :
  assemble dt state well_state o = Ok o' ->
  (forall phase, 0 <= phase < state_numPhases state -> phase < np_ (pdepfdata_ o))
  /\ 0 <= number_of_wells (wells_ o) <= Z.of_nat (length (bhp well_state)).
Proof.
  intros H. unfold assemble in H. cbv zeta in H. invert_binds H.
  match goal with
  | Hd : computePressQuant _ _ = Ok ?d,
    Hr : assemble_phases _ _ _ _ _ _ _ _ _ _ _ = Ok _,
    Hb : V_Map (bhp _) _ = Ok _ |- _ =>
      apply computePressQuant_Ok in Hd as (_ & _ & Hd);
      apply assemble_phases_checked in Hr;
      apply V_Map_Ok in Hb as [_ Hb]
  end.
  split; [|assumption].
  intros phase Hphase.
  match goal with
  | Hr : Forall _ (seqZ 0 _) |- _ =>
      rewrite Forall_forall in Hr; specialize (Hr phase)
  end.
  match goal with
  | Hr : phase ∈ _ -> _ |- _ =>
      destruct Hr as [_ Hr]; [apply elem_of_seqZ; lia|]
  end.
  subst. assumption.
Qed.

Lemma written_written a f : written (written a f) f = written a f.
Proof.
  unfold written. cbn. f_equal. apply list_eq. intros i.
  rewrite !list_lookup_imap. destruct (dq_data a !! i); reflexivity.
Qed.

(** A pressure refresh repeated on the same state changes nothing. *)
Lemma computePressQuant_again state d d' :
  computePressQuant state d = Ok d' -> computePressQuant state d' = Ok d'.
Proof.
  intros H. apply computePressQuant_Ok in H as (Hp & Hz & ->).
  unfold computePressQuant. cbv zeta.
  cbn [set_press nc_ np_ fluid_ cells_ A_ dA_ mu_].
  replace (Z.of_nat (length (pressure state)) =? nc_ d * 1) with true
    by (symmetry; apply Z.eqb_eq; lia).
  replace (Z.of_nat (length (surfacevol state)) =? nc_ d * np_ d) with true
    by (symmetry; apply Z.eqb_eq; lia).
  cbn [assert_]. rewrite !mbind_Ok. rewrite !written_written. reflexivity.
Qed.

(** The assembly reads neither the residual nor the arrays it is about to
    refresh: on an object that an assembly from the same state left
    behind, it does what it did before. *)
Lemma assemble_again dt state well_state o d r :
  computePressQuant state (pdepfdata_ o) = Ok d ->
  assemble dt state well_state (set_cell_residual (set_pdepfdata o d) r)
  = assemble dt state well_state o.
Proof.
  intros Hd. pose proof (computePressQuant_again _ _ _ Hd) as Hd'.
  unfold assemble. cbv zeta.
  cbn [set_cell_residual set_pdepfdata pdepfdata_ geo_poreVolume grid_number_of_cells
       geo_transmissibility wells_ ops_ upwind_ linsolver_].
  rewrite Hd, Hd'. change (mbind ?k (Ok d)) with (k d). cbv beta.
  repeat match goal with
    | |- mbind _ ?m = mbind _ ?m =>
        destruct m as [?|?];
        [change (mbind ?k (Ok ?a)) with (k a); cbv beta | reflexivity]
    end.
  match goal with
  | |- mbind _ (assemble_phases ?o1 _ _ _ _ _ _ _ _ _ _)
       = mbind _ (assemble_phases ?o2 _ _ _ _ _ _ _ _ _ _) =>
      rewrite (assemble_phases_ext o1 o2) by reflexivity
  end.
  destruct (assemble_phases _ _ _ _ _ _ _ _ _ _ _) as [r'|f]; reflexivity.
Qed.

Lemma copy_into_Ok src dest l :
  copy_into src dest = Ok l -> length l = length dest.
Proof.
  unfold copy_into. destruct (_ <=? _)%nat eqn:E; [|discriminate].
  apply Nat.leb_le in E. intros H. inversion H.
  rewrite length_app, length_drop. lia.
Qed.
End AssemblerMore.

(** X17.  An assembly that completes has found the state and the well
    state of the sizes it needs: one pressure per cell of the adapter,
    one surface volume per cell and phase, a number of grid cells within
    the pressures, a bottom-hole pressure for every well, and every phase
    of the state among the phases of the fluid. *)
Theorem assemble_certifies_sizes (dt : float) (state : Impes.BlackoilState)
    (well_state : Impes.WellState) (o o' : Impes.ImpesTPFAAD) :
  Impes.assemble dt state well_state o = Ok o' ->
  let d := Impes.pdepfdata_ o in
  Z.of_nat (length (Impes.pressure state)) = Impes.nc_ d
  /\ Z.of_nat (length (Impes.surfacevol state)) = Impes.nc_ d * Impes.np_ d
  /\ 0 <= Impes.grid_number_of_cells o <= Impes.nc_ d
  /\ 0 <= Impes.number_of_wells (Impes.wells_ o) <= Z.of_nat (length (Impes.bhp well_state))
  /\ forall phase, 0 <= phase < Impes.state_numPhases state -> phase < Impes.np_ d.
Proof.
  intros H d.
  destruct (assemble_checked _ _ _ _ _ H) as [Hphases Hw].
  apply assemble_Ok in H as (d' & r & Hd & _ & _ & _ & Hnc).
  apply computePressQuant_Ok in Hd as (Hp & Hz & _).
  subst d. repeat split; try assumption; lia.
Qed.

(** The theorem at the single cell with its single phase and single well. *)
Lemma assemble_certifies_sizes_witness :
  exists o',
    Impes.assemble 1.0 Impes.cell_state Impes.cell_well_state (Impes.cell_impes true) = Ok o'
    /\ Z.of_nat (length (Impes.pressure Impes.cell_state)) = 1
    /\ Z.of_nat (length (Impes.surfacevol Impes.cell_state)) = 1 * 1
    /\ 0 <= 1 <= 1
    /\ 0 <= 1 <= Z.of_nat (length (Impes.bhp Impes.cell_well_state))
    /\ forall phase, 0 <= phase < 1 -> phase < 1.
Proof.
  eassert (Ho : Impes.assemble 1.0 Impes.cell_state Impes.cell_well_state
                  (Impes.cell_impes true) = Ok _) by (vm_compute; reflexivity).
  eexists. split; [exact Ho|].
  exact (assemble_certifies_sizes 1.0 Impes.cell_state Impes.cell_well_state
           (Impes.cell_impes true) _ Ho).
Defined.

(** X18.  Assembling again from the same state and well state changes
    nothing: the pressure refresh writes the same coefficients and the
    residual is rebuilt from the pore volumes, not from what it was. *)
Theorem assemble_idempotent (dt : float) (state : Impes.BlackoilState)
    (well_state : Impes.WellState) (o o1 : Impes.ImpesTPFAAD) :
  Impes.assemble dt state well_state o = Ok o1 ->
  Impes.assemble dt state well_state o1 = Ok o1.
Proof.
  intros H. destruct (assemble_Ok _ _ _ _ _ H) as (d & r & Hd & Ho1 & _).
  rewrite Ho1 at 1. rewrite (assemble_again _ _ _ _ _ _ Hd). exact H.
Qed.

(** The theorem at the single cell. *)
Lemma assemble_idempotent_witness :
  exists o1,
    Impes.assemble 1.0 Impes.cell_state Impes.cell_well_state (Impes.cell_impes true) = Ok o1
    /\ Impes.assemble 1.0 Impes.cell_state Impes.cell_well_state o1 = Ok o1.
Proof.
  eassert (Ho : Impes.assemble 1.0 Impes.cell_state Impes.cell_well_state
                  (Impes.cell_impes true) = Ok _) by (vm_compute; reflexivity).
  eexists. split; [exact Ho|].
  exact (assemble_idempotent 1.0 Impes.cell_state Impes.cell_well_state
           (Impes.cell_impes true) _ Ho).
Defined.

(** X19.  [solve] changes nothing of the state but the pressures, whose
    number it keeps, and nothing of the object but the adapter's
    refreshed arrays and the cell residual. *)
Theorem solve_frame (dt : float) (state : Impes.BlackoilState)
    (well_state : Impes.WellState) (o : Impes.ImpesTPFAAD) (r : Impes.Solved) :
  Impes.solve dt state well_state o = Ok r ->
  let s' := Impes.state_after r in
  let o' := Impes.object_after r in
  Impes.saturation s' = Impes.saturation state
  /\ Impes.surfacevol s' = Impes.surfacevol state
  /\ Impes.state_numPhases s' = Impes.state_numPhases state
  /\ length (Impes.pressure s') = length (Impes.pressure state)
  /\ Impes.grid_number_of_cells o' = Impes.grid_number_of_cells o
  /\ Impes.geo_poreVolume o' = Impes.geo_poreVolume o
  /\ Impes.geo_transmissibility o' = Impes.geo_transmissibility o
  /\ Impes.wells_ o' = Impes.wells_ o
  /\ Impes.ops_ o' = Impes.ops_ o
  /\ Impes.well_residual_ o' = Impes.well_residual_ o
  /\ Impes.dmu_ (Impes.pdepfdata_ o') = Impes.dmu_ (Impes.pdepfdata_ o)
  /\ Impes.nc_ (Impes.pdepfdata_ o') = Impes.nc_ (Impes.pdepfdata_ o)
  /\ Impes.np_ (Impes.pdepfdata_ o') = Impes.np_ (Impes.pdepfdata_ o).
Proof.
  intros H. unfold Impes.solve in H. cbv zeta in H. invert_binds H.
  match goal with
  | Hs : Impes.computeSatQuant _ _ = Ok _, Ha : Impes.assemble _ _ _ _ = Ok _ |- _ =>
      apply computeSatQuant_Ok in Hs as [_ ->];
      apply assemble_Ok in Ha as (d' & r' & Hd & -> & _);
      apply computePressQuant_Ok in Hd as (_ & _ & ->)
  end.
  destruct (Impes.linsolver_ _ _ _ _) as [rep solution].
  destruct (negb (Impes.converged rep)).
  - inversion H; subst. cbn. repeat split; reflexivity.
  - invert_binds H. inversion H; subst. cbn.
    match goal with
    | Hc : Impes.copy_into _ _ = Ok _ |- _ => apply copy_into_Ok in Hc
    end.
    repeat split; try reflexivity. assumption.
Qed.

(** The theorem at the single cell with the converging backend. *)
Lemma solve_frame_witness :
  exists r,
    Impes.solve 1.0 Impes.cell_state Impes.cell_well_state (Impes.cell_impes true) = Ok r
    /\ Impes.saturation (Impes.state_after r) = [1.0%float]
    /\ length (Impes.pressure (Impes.state_after r)) = 1%nat
    /\ Impes.wells_ (Impes.object_after r) = Impes.cell_wells.
Proof.
  eassert (Hr : Impes.solve 1.0 Impes.cell_state Impes.cell_well_state
                  (Impes.cell_impes true) = Ok _) by (vm_compute; reflexivity).
  eexists. split; [exact Hr|].
  destruct (solve_frame 1.0 Impes.cell_state Impes.cell_well_state (Impes.cell_impes true)
              _ Hr) as (Hs & _ & _ & Hp & _ & _ & _ & Hw & _).
  repeat split; assumption.
Defined.

(** X20.  [solve] stops at a failed assertion, before any assembly and
    any linear solve, unless the state holds one saturation and one
    surface volume per cell and phase of the adapter and one pressure per
    cell. *)
Theorem solve_checks_sizes (dt : float) (state : Impes.BlackoilState)
    (well_state : Impes.WellState) (o : Impes.ImpesTPFAAD) :
  ~ (Z.of_nat (length (Impes.saturation state))
     = Impes.nc_ (Impes.pdepfdata_ o) * Impes.np_ (Impes.pdepfdata_ o)
     /\ Z.of_nat (length (Impes.pressure state)) = Impes.nc_ (Impes.pdepfdata_ o)
     /\ Z.of_nat (length (Impes.surfacevol state))
        = Impes.nc_ (Impes.pdepfdata_ o) * Impes.np_ (Impes.pdepfdata_ o)) ->
  Impes.solve dt state well_state o = Fail AssertionFailed.
Proof.
  intros Hsizes. unfold Impes.solve, Impes.computeSatQuant. cbv zeta.
  destruct (Z.of_nat (length (Impes.saturation state)) =? _) eqn:E1; [|reflexivity].
  cbn [assert_]. rewrite !mbind_Ok.
  unfold Impes.assemble, Impes.computePressQuant. cbv zeta.
  cbn [Impes.set_pdepfdata Impes.pdepfdata_ Impes.set_kr Impes.nc_ Impes.np_].
  destruct (Z.of_nat (length (Impes.pressure state)) =? _) eqn:E2; [|reflexivity].
  destruct (Z.of_nat (length (Impes.surfacevol state)) =? _) eqn:E3; [|reflexivity].
  apply Z.eqb_eq in E1, E2, E3. exfalso. apply Hsizes. repeat split; lia.
Qed.

(** The theorem at the single cell with a state of two pressures. *)
Lemma solve_checks_sizes_witness :
  Impes.solve 1.0
    (Impes.set_pressure Impes.cell_state [10.0; 11.0]%float)
    Impes.cell_well_state (Impes.cell_impes true)
  = Fail AssertionFailed.
Proof.
  apply (solve_checks_sizes 1.0 (Impes.set_pressure Impes.cell_state [10.0; 11.0]%float)
           Impes.cell_well_state (Impes.cell_impes true)).
  cbn. lia.
Defined.
